(** * Component checker: the instance locator and the link auditor

    A shallow embedding of [src/code.js]: [findAllComponentInstances],
    [isComponentLinked], [scanFrameForComponents] and the [scan-frame]
    branch of [figma.ui.onmessage].

    JavaScript arrays are mutable objects that are passed by reference.  The
    locator stores one array both in the record it emits and in the variable
    it later pushes to, so the arrays of ancestor names live in an explicit
    store and records hold addresses into it. *)

From Stdlib Require Import List String ZArith Lia Bool Arith.
Import ListNotations.
Set Warnings "-register-all".
Open Scope string_scope.
Open Scope list_scope.

(** ** The store of name arrays *)

Module Heap.

Definition ref := nat.
Definition t := list (list string).

Definition get (h : t) (r : ref) : list string := nth r h [].

Fixpoint modify (r : ref) (f : list string -> list string) (h : t) : t :=
  match h, r with
  | [], _ => []
  | a :: h', O => f a :: h'
  | a :: h', S r' => a :: modify r' f h'
  end.

End Heap.

(** ** Computations: a store threaded through, and exceptions *)

Inductive outcome (A : Type) : Type :=
| Ok (a : A)
| Throw (error : string).
Arguments Ok {A} a.
Arguments Throw {A} error.

Definition M (A : Type) : Type := Heap.t -> outcome A * Heap.t.

Definition ret {A} (a : A) : M A := fun h => (Ok a, h).

Definition bind {A B} (m : M A) (k : A -> M B) : M B :=
  fun h => match m h with
           | (Ok a, h') => k a h'
           | (Throw e, h') => (Throw e, h')
           end.

Declare Scope js_scope.
Delimit Scope js_scope with js.
Notation "x <- m ;; k" := (bind m (fun x => k))
  (at level 100, m at next level, right associativity) : js_scope.
Notation "m ;;; k" := (bind m (fun _ => k))
  (at level 100, right associativity) : js_scope.
Open Scope js_scope.

(** [try { body } catch (error) { handler }] *)
Definition try_catch {A} (body : M A) (handler : string -> M A) : M A :=
  fun h => match body h with
           | (Ok a, h') => (Ok a, h')
           | (Throw e, h') => handler e h'
           end.

(** Awaiting a host promise: it settles with a value or rejects, and does
    not touch the arrays of this program. *)
Definition await {A} (settled : outcome A) : M A := fun h => (settled, h).

(** [[...a]] and [[]]: a fresh array *)
Definition new_array (a : list string) : M Heap.ref :=
  fun h => (Ok (List.length h), h ++ [a]).

(** Reading the array behind a reference: [a.length], [a[i]], [...a] *)
Definition read (r : Heap.ref) : M (list string) :=
  fun h => (Ok (Heap.get h r), h).

(** [a.push(x)] *)
Definition push (r : Heap.ref) (x : string) : M unit :=
  fun h => (Ok tt, Heap.modify r (fun a => a ++ [x]) h).

(** [for (const x of xs) { acc.push(...body(x)) }] *)
Definition for_push {A B} (body : A -> M (list B)) : list A -> list B -> M (list B) :=
  fix go (xs : list A) (acc : list B) : M (list B) :=
    match xs with
    | [] => ret acc
    | x :: xs' => rs <- body x ;; go xs' (acc ++ rs)
    end.

(** [for (const x of xs) { st = body(st, x) }] *)
Definition for_of {A S} (body : S -> A -> M S) : list A -> S -> M S :=
  fix go (xs : list A) (st : S) : M S :=
    match xs with
    | [] => ret st
    | x :: xs' => st' <- body st x ;; go xs' st'
    end.

(** [a.length > 0 ? a[a.length - 1] : null] *)
Definition last_or_null (a : list string) : option string :=
  match a with
  | [] => None
  | _ :: _ => Some (last a EmptyString)
  end.

(** ** The data model *)

Module Node.
(** A node of the host document: [children] is [None] when the node has
    no [children] property. *)
Inductive t : Type :=
  mk { type : string; name : string; id : string; children : option (list t) }.
End Node.

Module InstanceRecord.
Record t : Type :=
  mk { node : Node.t; level : Z; parentPath : Heap.ref; parentName : option string }.
End InstanceRecord.

Module MainComponent.
Record t : Type := mk { remote : bool }.
End MainComponent.

Module Issue.
Record t : Type :=
  mk { name : string; id : string; type : string; level : Z;
       parentPath : Heap.ref; parentName : option string;
       parentId : option string }.
End Issue.

Module ScanResult.
Record t : Type :=
  mk { totalComponents : nat; totalIssues : nat;
       issues : list Issue.t; frameName : string }.
End ScanResult.

(** ** [findAllComponentInstances] *)

Definition isInstance (node : Node.t) : bool := Node.type node =? "INSTANCE".

Fixpoint findAllComponentInstances (node : Node.t) (level : Z) (parentPath : Heap.ref)
  : M (list InstanceRecord.t) :=
  parent <- read parentPath ;;
  currentPath <- new_array parent ;;
  instances <-
    (if isInstance node then
       current <- read currentPath ;;
       let record :=
         InstanceRecord.mk node level currentPath (last_or_null current) in
       push currentPath (Node.name node) ;;;
       ret [record]
     else ret []) ;;
  match Node.children node with
  | Some children =>
      for_push
        (fun child =>
           findAllComponentInstances child
             (level + (if isInstance node then 1 else 0))%Z currentPath)
        children instances
  | None => ret instances
  end.

(** The call [findAllComponentInstances(frame)]: [level = 0] and
    [parentPath = []] by default. *)
Definition locate (root : Node.t) : M (list InstanceRecord.t) :=
  parentPath <- new_array [] ;;
  findAllComponentInstances root 0%Z parentPath.

(** ** [isComponentLinked] and [scanFrameForComponents] *)

(** [Map.prototype.set] on a map kept in insertion order *)
Fixpoint map_set (k v : string) (m : list (string * string)) : list (string * string) :=
  match m with
  | [] => [(k, v)]
  | (k', v') :: m' => if k' =? k then (k', v) :: m' else (k', v') :: map_set k v m'
  end.

Section Host.

(** What the host's [instance.getMainComponentAsync()] settles to: a main
    component, [null], or a rejection. *)
Variable getMainComponentAsync : Node.t -> outcome (option MainComponent.t).

Definition isComponentLinked (instance : Node.t) : M bool :=
  try_catch
    (mainComponent <- await (getMainComponentAsync instance) ;;
     match mainComponent with
     | None => ret false
     | Some mainComponent => ret (Bool.eqb (MainComponent.remote mainComponent) true)
     end)
    (fun error => ret false).

(** The callback of [instances.find] *)
Definition isParentOf (path : list string) (instanceData inst : InstanceRecord.t) : bool :=
  (Node.name (InstanceRecord.node inst) =? last path EmptyString)
  && (InstanceRecord.level inst =? InstanceRecord.level instanceData - 1)%Z.

(** The search for a parent id: [null] when the path is empty or
    [instances.find] returns [undefined]. *)
Definition findParentId (path : list string) (instances : list InstanceRecord.t)
    (instanceData : InstanceRecord.t) : option string :=
  match path with
  | [] => None
  | _ :: _ =>
      match find (isParentOf path instanceData) instances with
      | Some parentInstance => Some (Node.id (InstanceRecord.node parentInstance))
      | None => None
      end
  end.

(** The object pushed to [issues] *)
Definition makeIssue (instanceData : InstanceRecord.t) (parentId : option string) : Issue.t :=
  let instance := InstanceRecord.node instanceData in
  Issue.mk (Node.name instance) (Node.id instance) "NOT_LINKED"
    (InstanceRecord.level instanceData)
    (InstanceRecord.parentPath instanceData)
    (InstanceRecord.parentName instanceData)
    parentId.

Definition scanState : Type := list Issue.t * list (string * string).

(** The body of the loop over [instances]; the state is [issues] and
    [parentIdMap]. *)
Definition scanBody (instances : list InstanceRecord.t)
    (st : scanState) (instanceData : InstanceRecord.t) : M scanState :=
  let instance := InstanceRecord.node instanceData in
  isLinked <- isComponentLinked instance ;;
  if negb isLinked then
    path <- read (InstanceRecord.parentPath instanceData) ;;
    let parentId := findParentId path instances instanceData in
    ret (fst st ++ [makeIssue instanceData parentId],
         map_set (Node.id instance) (Node.name instance) (snd st))
  else ret st.

Definition scanFrameForComponents (frame : Node.t) : M ScanResult.t :=
  instances <- locate frame ;;
  st <- for_of (scanBody instances) instances ([], []) ;;
  let issues := fst st in
  ret (ScanResult.mk (List.length instances) (List.length issues) issues (Node.name frame)).

(** ** The message handler *)

Inductive message : Type :=
| ScanFrame
| Cancel
| ResizeUi (height : Z)
| SelectComponent (componentId : string)
| OtherMessage (type : string).

Inductive posted : Type :=
| ScanResultError (error : string)
| ScanResultOk (result : ScanResult.t)
| SelectionError (error : string).

Inductive effect : Type :=
| PostMessage (m : posted)
| ClosePlugin
| Resize (width height : Z)
| SetSelection (nodes : list Node.t)
| ScrollAndZoomIntoView (nodes : list Node.t).

(** [figma.getNodeByIdAsync] (or [figma.getNodeById]) *)
Variable getNodeById : string -> outcome (option Node.t).

Definition isContainer (node : Node.t) : bool :=
  (Node.type node =? "FRAME") || (Node.type node =? "COMPONENT")
  || (Node.type node =? "COMPONENT_SET").

(** [figma.ui.onmessage], given [figma.currentPage.selection]; the result
    lists the calls made on the host. *)
Definition onmessage (selection : list Node.t) (msg : message) : M (list effect) :=
  match msg with
  | ScanFrame =>
      match selection with
      | [] =>
          ret [PostMessage (ScanResultError "Por favor, selecciona un frame para escanear.")]
      | selectedNode :: _ =>
          if negb (isContainer selectedNode) then
            ret [PostMessage
                   (ScanResultError "Por favor, selecciona un Frame, Component o Component Set.")]
          else
            scanResult <- scanFrameForComponents selectedNode ;;
            ret [PostMessage (ScanResultOk scanResult)]
      end
  | Cancel => ret [ClosePlugin]
  | ResizeUi height => ret [Resize 640 height]
  | SelectComponent componentId =>
      try_catch
        (node <- await (getNodeById componentId) ;;
         match node with
         | Some node => ret [SetSelection [node]; ScrollAndZoomIntoView [node]]
         | None => ret [PostMessage (SelectionError "No se pudo encontrar el componente.")]
         end)
        (fun error =>
           ret [PostMessage
                  (SelectionError
                     (String.append "Error al seleccionar el componente: " error))])
  | OtherMessage _ => ret []
  end.

End Host.

(** ** Vocabulary of trees *)

(** Every node of the tree with its strict ancestors (outermost first), in
    depth-first pre-order, children in their order. *)
Fixpoint walk (ancestors : list Node.t) (n : Node.t) : list (list Node.t * Node.t) :=
  (ancestors, n) ::
  match Node.children n with
  | Some cs => flat_map (walk (ancestors ++ [n])) cs
  | None => []
  end.

Fixpoint preorder (n : Node.t) : list Node.t :=
  n :: match Node.children n with
       | Some cs => flat_map preorder cs
       | None => []
       end.

(** The nodes strictly below [n] *)
Definition descendants (n : Node.t) : list Node.t := tl (preorder n).

Definition instanceNames (ancestors : list Node.t) : list string :=
  map Node.name (filter isInstance ancestors).

(** ** What a reader of a record or an issue sees in a given store *)

Module Seen.
Record record : Type :=
  mkRecord { node : Node.t; level : Z; parentPath : list string;
             parentName : option string }.
Record issue : Type :=
  mkIssue { name : string; id : string; type : string; issueLevel : Z;
            issuePath : list string; issueParentName : option string;
            parentId : option string }.
Record result : Type :=
  mkResult { totalComponents : nat; totalIssues : nat;
             issues : list issue; frameName : string }.
End Seen.

Definition seeRecord (h : Heap.t) (r : InstanceRecord.t) : Seen.record :=
  Seen.mkRecord (InstanceRecord.node r) (InstanceRecord.level r)
    (Heap.get h (InstanceRecord.parentPath r)) (InstanceRecord.parentName r).

Definition seeIssue (h : Heap.t) (i : Issue.t) : Seen.issue :=
  Seen.mkIssue (Issue.name i) (Issue.id i) (Issue.type i) (Issue.level i)
    (Heap.get h (Issue.parentPath i)) (Issue.parentName i) (Issue.parentId i).

Definition seeResult (h : Heap.t) (r : ScanResult.t) : Seen.result :=
  Seen.mkResult (ScanResult.totalComponents r) (ScanResult.totalIssues r)
    (map (seeIssue h) (ScanResult.issues r)) (ScanResult.frameName r).

(** ** Sample documents *)

Definition leaf (type name id : string) : Node.t := Node.mk type name id None.

Definition icon : Node.t := leaf "INSTANCE" "Icon" "1:3".
Definition btn : Node.t := Node.mk "INSTANCE" "Btn" "1:2" (Some [icon]).
Definition rootR : Node.t := Node.mk "FRAME" "R" "1:1" (Some [btn]).

Definition local : outcome (option MainComponent.t) := Ok (Some (MainComponent.mk false)).
Definition library : outcome (option MainComponent.t) := Ok (Some (MainComponent.mk true)).

Definition allLocal (n : Node.t) : outcome (option MainComponent.t) := local.
Definition noNode (i : string) : outcome (option Node.t) := Ok None.


(** A document in which an instance named Btn contains another instance
    named Btn, the outer one coming from a library. *)
Definition innerBtn : Node.t := leaf "INSTANCE" "Btn" "1:3".
Definition outerBtn : Node.t := Node.mk "INSTANCE" "Btn" "1:2" (Some [innerBtn]).
Definition rootTwin : Node.t := Node.mk "FRAME" "R" "1:1" (Some [outerBtn]).

Definition outerLinked (n : Node.t) : outcome (option MainComponent.t) :=
  if Node.id n =? "1:2" then library else local.

Definition rectangle : Node.t := leaf "RECTANGLE" "Shape" "1:9".

(** ** What the code computes, without the store *)

(** The verdict of [isComponentLinked] on a node, read off a run of it *)
Definition classify (env : Node.t -> outcome (option MainComponent.t)) (n : Node.t) : bool :=
  match fst (isComponentLinked env n []) with
  | Ok b => b
  | Throw _ => false
  end.

Definition atInstance (p : list Node.t * Node.t) : bool := isInstance (snd p).

(** The record of an INSTANCE node with the given strict ancestors, as it
    reads once the locator has returned. *)
Definition emitted (p : list Node.t * Node.t) : Seen.record :=
  Seen.mkRecord (snd p)
    (Z.of_nat (List.length (filter isInstance (fst p))))
    (instanceNames (fst p) ++ [Node.name (snd p)])
    (last_or_null (instanceNames (fst p))).

Definition located (root : Node.t) : list Seen.record :=
  map emitted (filter atInstance (walk [] root)).

Definition seenIsParentOf (r inst : Seen.record) : bool :=
  (Node.name (Seen.node inst) =? last (Seen.parentPath r) EmptyString)
  && (Seen.level inst =? Seen.level r - 1)%Z.

Definition seenParentId (seen : list Seen.record) (r : Seen.record) : option string :=
  match Seen.parentPath r with
  | [] => None
  | _ :: _ =>
      match find (seenIsParentOf r) seen with
      | Some parent => Some (Node.id (Seen.node parent))
      | None => None
      end
  end.

Definition seenIssue (seen : list Seen.record) (r : Seen.record) : Seen.issue :=
  Seen.mkIssue (Node.name (Seen.node r)) (Node.id (Seen.node r)) "NOT_LINKED"
    (Seen.level r) (Seen.parentPath r) (Seen.parentName r) (seenParentId seen r).

Definition audited (env : Node.t -> outcome (option MainComponent.t)) (root : Node.t)
  : Seen.result :=
  let seen := located root in
  let issues :=
    map (seenIssue seen) (filter (fun r => negb (classify env (Seen.node r))) seen) in
  Seen.mkResult (List.length seen) (List.length issues) issues (Node.name root).

Definition unlinked (env : Node.t -> outcome (option MainComponent.t))
    (r : InstanceRecord.t) : bool :=
  negb (classify env (InstanceRecord.node r)).

(** The issue the loop body pushes for [r], the store being [h] *)
Definition issueFor (h : Heap.t) (instances : list InstanceRecord.t)
    (r : InstanceRecord.t) : Issue.t :=
  makeIssue r (findParentId (Heap.get h (InstanceRecord.parentPath r)) instances r).

(** The nearest INSTANCE among the strict ancestors of a node *)
Definition nearestInstance (ancestors : list Node.t) : option Node.t :=
  match filter isInstance ancestors with
  | [] => None
  | a :: l => Some (last (a :: l) a)
  end.

Definition childrenOf (n : Node.t) : list Node.t :=
  match Node.children n with
  | Some cs => cs
  | None => []
  end.

(** ** Further vocabulary *)

(** An INSTANCE node that [isComponentLinked] does not accept *)
Definition unlinkedInstance (env : Node.t -> outcome (option MainComponent.t))
    (n : Node.t) : bool :=
  isInstance n && negb (classify env n).


(** ** The start of the plugin *)

Inductive lookupKind : Type :=
| AsyncLookup
| SyncLookup.

Inductive startupEffect : Type :=
| ShowUI (width height : Z)
| SetOnMessage (lookup : lookupKind).

(** The four [if (figma.editorType === ...)] blocks, in their order: each
    shows the UI and installs its handler, which differ only in the node
    lookup ([figma.getNodeByIdAsync] for figma, [figma.getNodeById]
    elsewhere). *)
Definition startup (editorType : string) : list startupEffect :=
  (if editorType =? "figma" then [ShowUI 640 300; SetOnMessage AsyncLookup] else [])
  ++ (if editorType =? "figjam" then [ShowUI 640 300; SetOnMessage SyncLookup] else [])
  ++ (if editorType =? "slides" then [ShowUI 640 300; SetOnMessage SyncLookup] else [])
  ++ (if editorType =? "buzz" then [ShowUI 640 300; SetOnMessage SyncLookup] else []).

(** ** Further sample documents *)

Definition plainFrame : Node.t := Node.mk "FRAME" "Empty" "2:1" (Some [rectangle]).
Definition allLibrary (n : Node.t) : outcome (option MainComponent.t) := library.

(** * Proofs *)

(** ** The store *)

Lemma get_app_old (h ext : Heap.t) (r : Heap.ref) :
  r < List.length h -> Heap.get (h ++ ext) r = Heap.get h r.
Proof. intros Hr. unfold Heap.get. now apply app_nth1. Qed.

Lemma get_app_new (h : Heap.t) (a : list string) (ext : Heap.t) :
  Heap.get (h ++ a :: ext) (List.length h) = a.
Proof. unfold Heap.get. now rewrite nth_middle. Qed.

Lemma modify_new (h : Heap.t) (a : list string) (f : list string -> list string) :
  Heap.modify (List.length h) f (h ++ [a]) = h ++ [f a].
Proof. induction h as [|b h IH]; simpl; [reflexivity | now rewrite IH]. Qed.

Lemma seeRecord_app_old (h ext : Heap.t) (r : InstanceRecord.t) :
  InstanceRecord.parentPath r < List.length h ->
  seeRecord (h ++ ext) r = seeRecord h r.
Proof. intros Hr. unfold seeRecord. now rewrite get_app_old. Qed.

Lemma map_seeRecord_app_old (h ext : Heap.t) (rs : list InstanceRecord.t) :
  Forall (fun r => InstanceRecord.parentPath r < List.length h) rs ->
  map (seeRecord (h ++ ext)) rs = map (seeRecord h) rs.
Proof.
  induction 1 as [|r rs Hr _ IH]; simpl; [reflexivity|].
  now rewrite IH, seeRecord_app_old.
Qed.

Lemma Forall_below_app (h ext : Heap.t) (rs : list InstanceRecord.t) :
  Forall (fun r => InstanceRecord.parentPath r < List.length h) rs ->
  Forall (fun r => InstanceRecord.parentPath r < List.length (h ++ ext)) rs.
Proof.
  apply Forall_impl. intros r Hr. rewrite length_app. lia.
Qed.

(** ** Trees *)

Lemma Node_ind_children (P : Node.t -> Prop) :
  (forall n, Forall P (childrenOf n) -> P n) -> forall n, P n.
Proof.
  intros step. fix IH 1. intros n. apply step.
  destruct n as [t nm i [cs|]]; unfold childrenOf; simpl; [|constructor].
  induction cs as [|c cs IHcs]; constructor; [apply IH | exact IHcs].
Qed.

Lemma walk_eq (ancestors : list Node.t) (n : Node.t) :
  walk ancestors n = (ancestors, n) :: flat_map (walk (ancestors ++ [n])) (childrenOf n).
Proof. destruct n as [t nm i [cs|]]; reflexivity. Qed.

Lemma preorder_eq (n : Node.t) :
  preorder n = n :: flat_map preorder (childrenOf n).
Proof. destruct n as [t nm i [cs|]]; reflexivity. Qed.

Lemma findAllComponentInstances_eq (node : Node.t) (level : Z) (parentPath : Heap.ref) :
  findAllComponentInstances node level parentPath =
  (parent <- read parentPath ;;
   currentPath <- new_array parent ;;
   instances <-
     (if isInstance node then
        current <- read currentPath ;;
        let record :=
          InstanceRecord.mk node level currentPath (last_or_null current) in
        push currentPath (Node.name node) ;;;
        ret [record]
      else ret []) ;;
   for_push
     (fun child =>
        findAllComponentInstances child
          (level + (if isInstance node then 1 else 0))%Z currentPath)
     (childrenOf node) instances).
Proof. destruct node as [t nm i [cs|]]; reflexivity. Qed.

(** ** The locator *)

Lemma for_push_locates (body : Node.t -> M (list InstanceRecord.t))
    (F : Node.t -> list Seen.record) (p : Heap.ref) (names : list string)
    (cs : list Node.t) :
  Forall (fun c => forall h, Heap.get h p = names -> p < List.length h ->
            exists rs ext,
              body c h = (Ok rs, h ++ ext)
              /\ Forall (fun r => InstanceRecord.parentPath r < List.length (h ++ ext)) rs
              /\ map (seeRecord (h ++ ext)) rs = F c) cs ->
  forall acc h, Heap.get h p = names -> p < List.length h ->
    exists rs ext,
      for_push body cs acc h = (Ok (acc ++ rs), h ++ ext)
      /\ Forall (fun r => InstanceRecord.parentPath r < List.length (h ++ ext)) rs
      /\ map (seeRecord (h ++ ext)) rs = flat_map F cs.
Proof.
  induction 1 as [|c cs Hc _ IH]; intros acc h Hget Hp.
  - exists [], []. simpl. unfold ret. rewrite !app_nil_r. auto.
  - destruct (Hc h Hget Hp) as (rs1 & e1 & Hrun & Hb1 & Hsee1).
    destruct (IH (acc ++ rs1) (h ++ e1)) as (rs2 & e2 & Hrun2 & Hb2 & Hsee2).
    + now rewrite get_app_old.
    + rewrite length_app. lia.
    + exists (rs1 ++ rs2), (e1 ++ e2). simpl. unfold bind at 1. rewrite Hrun, Hrun2.
      rewrite !app_assoc. repeat split.
      * apply Forall_app. split; [now apply Forall_below_app | exact Hb2].
      * rewrite map_app, Hsee2, map_seeRecord_app_old, Hsee1 by exact Hb1.
        reflexivity.
Qed.

Lemma instanceNames_snoc (ancestors : list Node.t) (n : Node.t) :
  instanceNames (ancestors ++ [n]) =
  if isInstance n then instanceNames ancestors ++ [Node.name n] else instanceNames ancestors.
Proof.
  unfold instanceNames. rewrite filter_app. simpl.
  destruct (isInstance n); [now rewrite map_app | now rewrite app_nil_r].
Qed.

Lemma instance_count_snoc (ancestors : list Node.t) (n : Node.t) :
  Z.of_nat (List.length (filter isInstance (ancestors ++ [n]))) =
  (Z.of_nat (List.length (filter isInstance ancestors)) + (if isInstance n then 1 else 0))%Z.
Proof.
  rewrite filter_app, length_app. simpl. destruct (isInstance n); simpl; lia.
Qed.

Lemma filter_flat_map {A B} (f : B -> bool) (g : A -> list B) (l : list A) :
  filter f (flat_map g l) = flat_map (fun x => filter f (g x)) l.
Proof. induction l as [|x l IH]; simpl; [reflexivity | now rewrite filter_app, IH]. Qed.

Lemma map_flat_map {A B C} (f : B -> C) (g : A -> list B) (l : list A) :
  map f (flat_map g l) = flat_map (fun x => map f (g x)) l.
Proof. induction l as [|x l IH]; simpl; [reflexivity | now rewrite map_app, IH]. Qed.

Lemma findAllComponentInstances_locates (n : Node.t) :
  forall ancestors level p h,
    Heap.get h p = instanceNames ancestors ->
    level = Z.of_nat (List.length (filter isInstance ancestors)) ->
    exists rs ext,
      findAllComponentInstances n level p h = (Ok rs, h ++ ext)
      /\ Forall (fun r => InstanceRecord.parentPath r < List.length (h ++ ext)) rs
      /\ map (seeRecord (h ++ ext)) rs = map emitted (filter atInstance (walk ancestors n)).
Proof.
  induction n as [n IH] using Node_ind_children.
  intros ancestors level p h Hget Hlevel.
  rewrite findAllComponentInstances_eq, walk_eq.
  set (F := fun c => map emitted (filter atInstance (walk (ancestors ++ [n]) c))).
  assert (Hwalk : map emitted (filter atInstance
                    ((ancestors, n) :: flat_map (walk (ancestors ++ [n])) (childrenOf n)))
                  = (if isInstance n then [emitted (ancestors, n)] else [])
                    ++ flat_map F (childrenOf n)).
  { simpl. unfold atInstance at 1. simpl.
    rewrite (filter_flat_map atInstance).
    destruct (isInstance n); simpl; now rewrite map_flat_map. }
  rewrite Hwalk. clear Hwalk.
  unfold bind at 1, read at 1. unfold bind at 1, new_array at 1.
  unfold bind at 1.
  destruct (isInstance n) eqn:Einst.
  - unfold bind at 1, read at 1. unfold bind at 1, push at 1, ret at 1.
    rewrite get_app_new, modify_new.
    destruct (for_push_locates
                (fun child => findAllComponentInstances child (level + 1) (List.length h))
                F (List.length h) (instanceNames (ancestors ++ [n])) (childrenOf n))
      with (acc := [InstanceRecord.mk n level (List.length h) (last_or_null (Heap.get h p))])
           (h := h ++ [Heap.get h p ++ [Node.name n]])
      as (rs & ext & Hrun & Hbelow & Hsee).
    + eapply Forall_impl; [|exact IH]. intros c Hc h' Hget' _.
      apply Hc; [exact Hget'|]. rewrite instance_count_snoc, Einst. lia.
    + rewrite get_app_new, instanceNames_snoc, Einst, Hget. reflexivity.
    + rewrite length_app. simpl. lia.
    + eexists _, ([_] ++ ext). rewrite app_assoc. split; [exact Hrun|]. split.
      * constructor; [|exact Hbelow]. simpl. rewrite !length_app. simpl. lia.
      * simpl. rewrite Hsee. f_equal.
        unfold seeRecord, emitted. simpl.
        rewrite <- app_assoc. simpl. rewrite get_app_new, Hget, Hlevel. reflexivity.
  - unfold ret at 1.
    destruct (for_push_locates
                (fun child => findAllComponentInstances child (level + 0) (List.length h))
                F (List.length h) (instanceNames (ancestors ++ [n])) (childrenOf n))
      with (acc := @nil InstanceRecord.t) (h := h ++ [Heap.get h p])
      as (rs & ext & Hrun & Hbelow & Hsee).
    + eapply Forall_impl; [|exact IH]. intros c Hc h' Hget' _.
      apply Hc; [exact Hget'|]. rewrite instance_count_snoc, Einst. lia.
    + rewrite get_app_new, instanceNames_snoc, Einst, Hget. reflexivity.
    + rewrite length_app. simpl. lia.
    + eexists _, ([_] ++ ext). rewrite app_assoc. split; [exact Hrun|]. split.
      * exact Hbelow.
      * simpl. exact Hsee.
Qed.

Lemma locate_locates (root : Node.t) (h : Heap.t) :
  exists rs ext,
    locate root h = (Ok rs, h ++ ext)
    /\ Forall (fun r => InstanceRecord.parentPath r < List.length (h ++ ext)) rs
    /\ map (seeRecord (h ++ ext)) rs = located root.
Proof.
  unfold locate, bind, new_array.
  destruct (findAllComponentInstances_locates root [] 0%Z (List.length h) (h ++ [[]]))
    as (rs & ext & Hrun & Hbelow & Hsee).
  - now rewrite get_app_new.
  - reflexivity.
  - exists rs, ([[]] ++ ext). rewrite app_assoc. auto.
Qed.

(** ** The auditor *)

Lemma isComponentLinked_run (env : Node.t -> outcome (option MainComponent.t))
    (instance : Node.t) (h : Heap.t) :
  isComponentLinked env instance h = (Ok (classify env instance), h).
Proof.
  unfold classify, isComponentLinked, try_catch, bind, await, ret.
  destruct (env instance) as [[mc|]|e]; reflexivity.
Qed.

Lemma scan_loop_run (env : Node.t -> outcome (option MainComponent.t))
    (instances : list InstanceRecord.t) (h : Heap.t) (l : list InstanceRecord.t) :
  forall st, exists parentIdMap,
    for_of (scanBody env instances) l st h =
    (Ok (fst st ++ map (issueFor h instances) (filter (unlinked env) l), parentIdMap), h).
Proof.
  induction l as [|r l IH]; intros st.
  - exists (snd st). simpl. unfold ret. rewrite app_nil_r. now destruct st.
  - simpl. unfold bind at 1. unfold scanBody at 1. unfold bind at 1.
    rewrite isComponentLinked_run. unfold unlinked at 1.
    destruct (classify env (InstanceRecord.node r)); simpl.
    + apply IH.
    + destruct (IH (fst st ++ [makeIssue r (findParentId
                                  (Heap.get h (InstanceRecord.parentPath r)) instances r)],
                    map_set (Node.id (InstanceRecord.node r))
                      (Node.name (InstanceRecord.node r)) (snd st)))
        as (m & Hm).
      exists m. rewrite Hm. simpl. now rewrite <- app_assoc.
Qed.

Lemma scanFrameForComponents_run (env : Node.t -> outcome (option MainComponent.t))
    (frame : Node.t) (h : Heap.t) :
  exists recs ext,
    locate frame h = (Ok recs, h ++ ext)
    /\ Forall (fun r => InstanceRecord.parentPath r < List.length (h ++ ext)) recs
    /\ map (seeRecord (h ++ ext)) recs = located frame
    /\ scanFrameForComponents env frame h =
       (Ok (let issues := map (issueFor (h ++ ext) recs) (filter (unlinked env) recs) in
            ScanResult.mk (List.length recs) (List.length issues) issues (Node.name frame)),
        h ++ ext).
Proof.
  destruct (locate_locates frame h) as (recs & ext & Hrun & Hbelow & Hsee).
  exists recs, ext. repeat split; try assumption.
  unfold scanFrameForComponents. unfold bind at 1. rewrite Hrun.
  unfold bind at 1.
  destruct (scan_loop_run env recs (h ++ ext) recs ([], [])) as (m & Hm).
  rewrite Hm. reflexivity.
Qed.

Lemma find_map {A B} (f : B -> bool) (g : A -> B) (l : list A) :
  find f (map g l) = option_map g (find (fun x => f (g x)) l).
Proof.
  induction l as [|x l IH]; simpl; [reflexivity|].
  destruct (f (g x)); [reflexivity | exact IH].
Qed.

Lemma filter_map_swap {A B} (f : B -> bool) (g : A -> B) (l : list A) :
  filter f (map g l) = map g (filter (fun x => f (g x)) l).
Proof.
  induction l as [|x l IH]; simpl; [reflexivity|].
  destruct (f (g x)); simpl; now rewrite IH.
Qed.

Lemma seeIssue_issueFor (h : Heap.t) (instances : list InstanceRecord.t)
    (r : InstanceRecord.t) :
  seeIssue h (issueFor h instances r) = seenIssue (map (seeRecord h) instances) (seeRecord h r).
Proof.
  unfold seeIssue, issueFor, makeIssue, seenIssue. simpl. f_equal.
  unfold findParentId, seenParentId. simpl.
  destruct (Heap.get h (InstanceRecord.parentPath r)) as [|x path] eqn:Hpath; [reflexivity|].
  rewrite find_map.
  replace (fun x0 => seenIsParentOf (seeRecord h r) (seeRecord h x0))
    with (isParentOf (x :: path) r).
  - now destruct (find (isParentOf (x :: path) r) instances).
  - unfold seenIsParentOf, isParentOf. simpl. now rewrite Hpath.
Qed.

Lemma seeIssue_app_old (h ext : Heap.t) (i : Issue.t) :
  Issue.parentPath i < List.length h -> seeIssue (h ++ ext) i = seeIssue h i.
Proof. intros Hi. unfold seeIssue. now rewrite get_app_old. Qed.

(** Whatever the store it starts from, a scan returns, and its result reads
    as [audited]; later allocations do not change that reading. *)
Lemma scanFrameForComponents_audited (env : Node.t -> outcome (option MainComponent.t))
    (frame : Node.t) (h : Heap.t) :
  exists res ext,
    scanFrameForComponents env frame h = (Ok res, h ++ ext)
    /\ forall ext', seeResult ((h ++ ext) ++ ext') res = audited env frame.
Proof.
  destruct (scanFrameForComponents_run env frame h)
    as (recs & ext & _ & Hbelow & Hsee & Hrun).
  eexists _, ext. split; [exact Hrun|]. intros ext'.
  unfold seeResult, audited. simpl.
  rewrite <- Hsee.
  assert (Hissues :
    map (seeIssue ((h ++ ext) ++ ext'))
      (map (issueFor (h ++ ext) recs) (filter (unlinked env) recs))
    = map (seenIssue (map (seeRecord (h ++ ext)) recs))
        (filter (fun r => negb (classify env (Seen.node r)))
           (map (seeRecord (h ++ ext)) recs))).
  { rewrite filter_map_swap, !map_map. apply map_ext_in.
    intros r Hr. apply filter_In in Hr. destruct Hr as [Hr _].
    rewrite seeIssue_app_old, seeIssue_issueFor; [reflexivity|].
    rewrite Forall_forall in Hbelow. exact (Hbelow r Hr). }
  rewrite <- Hissues. f_equal; now rewrite !List.length_map.
Qed.

(** ** Lists and trees, continued *)

Lemma map_snd_walk (ancestors : list Node.t) (n : Node.t) :
  map snd (walk ancestors n) = preorder n.
Proof.
  revert ancestors. induction n as [n IH] using Node_ind_children. intros ancestors.
  rewrite walk_eq, preorder_eq. simpl. f_equal.
  rewrite map_flat_map.
  induction IH as [|c cs Hc _ IHcs]; simpl; [reflexivity|].
  now rewrite Hc, IHcs.
Qed.

(** The first components of [walk] are strict ancestors: every node listed
    lies below each of the nodes listed as above it. *)
Lemma walk_ancestors_above (root : Node.t) :
  forall above ancestors n,
    In (ancestors, n) (walk above root) ->
    exists below,
      ancestors = above ++ below /\ Forall (fun a => In n (descendants a)) below.
Proof.
  induction root as [root IH] using Node_ind_children.
  intros above ancestors n Hin. rewrite walk_eq in Hin. destruct Hin as [Heq | Hin].
  - injection Heq as <- <-. exists []. now rewrite app_nil_r.
  - apply in_flat_map in Hin. destruct Hin as (c & Hc & Hin).
    rewrite Forall_forall in IH.
    destruct (IH c Hc _ _ _ Hin) as (below & -> & Hbelow).
    exists (root :: below). rewrite <- app_assoc. split; [reflexivity|].
    constructor; [|exact Hbelow].
    unfold descendants. rewrite preorder_eq. simpl.
    apply in_flat_map. exists c. split; [exact Hc|].
    rewrite <- (map_snd_walk (above ++ [root]) c).
    exact (in_map snd _ _ Hin).
Qed.

Lemma located_nodes (root : Node.t) :
  map Seen.node (located root) = filter isInstance (preorder root).
Proof.
  unfold located. rewrite map_map. simpl.
  rewrite <- (map_snd_walk [] root).
  rewrite (filter_map_swap isInstance snd). reflexivity.
Qed.

Lemma preorder_In_split (root a : Node.t) :
  In a (preorder root) ->
  exists l1 l3, preorder root = l1 ++ preorder a ++ l3.
Proof.
  induction root as [root IH] using Node_ind_children. intros Hin.
  rewrite preorder_eq in Hin. destruct Hin as [Heq | Hin].
  - subst a. exists [], []. now rewrite app_nil_r.
  - apply in_flat_map in Hin. destruct Hin as (c & Hc & Hin).
    rewrite Forall_forall in IH. destruct (IH c Hc Hin) as (l1 & l3 & Hsplit).
    apply in_split in Hc. destruct Hc as (cs1 & cs2 & Hcs).
    exists (root :: flat_map preorder cs1 ++ l1), (l3 ++ flat_map preorder cs2).
    rewrite (preorder_eq root), Hcs, flat_map_app. simpl. rewrite Hsplit.
    now rewrite <- !app_assoc.
Qed.

Lemma map_eq_two {A B} (g : A -> B) (l : list A) (x1 x2 x3 : list B) (a b : B) :
  map g l = x1 ++ a :: x2 ++ b :: x3 ->
  exists l1 ra l2 rb l3,
    l = l1 ++ ra :: l2 ++ rb :: l3 /\ g ra = a /\ g rb = b.
Proof.
  intros H.
  apply map_eq_app in H. destruct H as (l1 & t1 & -> & _ & H).
  apply map_eq_cons in H. destruct H as (ra & t2 & -> & Ha & H).
  apply map_eq_app in H. destruct H as (l2 & t3 & -> & _ & H).
  apply map_eq_cons in H. destruct H as (rb & l3 & -> & Hb & _).
  now exists l1, ra, l2, rb, l3.
Qed.

Lemma last_nonempty_default {A} (l : list A) :
  forall a d1 d2, last (a :: l) d1 = last (a :: l) d2.
Proof.
  induction l as [|b l IH]; intros a d1 d2; [reflexivity|].
  change (last (b :: l) d1 = last (b :: l) d2). apply IH.
Qed.

Lemma last_map {A B} (f : A -> B) (l : list A) :
  forall (a : A) (d : B), last (map f (a :: l)) d = f (last (a :: l) a).
Proof.
  induction l as [|b l IH]; intros a d; [reflexivity|].
  change (last (map f (b :: l)) d = f (last (b :: l) a)).
  rewrite IH. f_equal. apply last_nonempty_default.
Qed.

Lemma last_or_null_instanceNames (ancestors : list Node.t) :
  last_or_null (instanceNames ancestors) = option_map Node.name (nearestInstance ancestors).
Proof.
  unfold instanceNames, nearestInstance.
  destruct (filter isInstance ancestors) as [|a l]; [reflexivity|].
  unfold last_or_null, option_map.
  change (Node.name a :: map Node.name l) with (map Node.name (a :: l)).
  now rewrite (last_map Node.name l a EmptyString).
Qed.

(** * The claims *)

(** ** The locator *)

Lemma map_eq_Forall {A B C} (f : A -> C) (g : B -> C) (l : list A) :
  forall ps, map f l = map g ps -> Forall (fun x => exists p, f x = g p) l.
Proof.
  induction l as [|x l IH]; intros ps Heq; [constructor|].
  destruct ps as [|p ps]; [discriminate|].
  injection Heq as Hx Hrest. constructor; [now exists p | exact (IH ps Hrest)].
Qed.

(** C1 (the code departs from the claim).  When the locator returns, the
    chain stored in every record is the list of the names of the INSTANCE
    nodes strictly above the record's node, outermost first, followed by the
    name of the record's own node: the array stored in the record is the one
    the locator then pushes the node's name to.  [parentName], read when the
    record was created, is the last name of the chain without that entry. *)
Theorem C1_stored_chain_ends_with_own_name (root : Node.t) (h : Heap.t) :
  exists recs h',
    locate root h = (Ok recs, h')
    /\ map (fun r => (InstanceRecord.node r, Heap.get h' (InstanceRecord.parentPath r))) recs
       = map (fun p => (snd p, instanceNames (fst p) ++ [Node.name (snd p)]))
           (filter atInstance (walk [] root))
    /\ Forall (fun r =>
         let chain := Heap.get h' (InstanceRecord.parentPath r) in
         In (Node.name (InstanceRecord.node r)) chain
         /\ last chain EmptyString = Node.name (InstanceRecord.node r)
         /\ InstanceRecord.parentName r = last_or_null (removelast chain)) recs.
Proof.
  destruct (locate_locates root h) as (recs & ext & Hrun & _ & Hsee).
  exists recs, (h ++ ext). split; [exact Hrun|]. split.
  - apply (f_equal (map (fun s => (Seen.node s, Seen.parentPath s)))) in Hsee.
    unfold located in Hsee. rewrite !map_map in Hsee. exact Hsee.
  - apply map_eq_Forall in Hsee. eapply Forall_impl; [|exact Hsee].
    intros r ([ancestors n] & Hr). unfold seeRecord, emitted in Hr.
    injection Hr as Hnode _ Hchain Hname. simpl in *.
    rewrite Hchain, Hnode, Hname. repeat split.
    + apply in_or_app. right. now left.
    + apply last_last.
    + now rewrite removelast_last.
Qed.

(** The smallest instance of C1: an INSTANCE root named Btn. *)
Example C1_single_instance :
  exists recs h',
    locate (leaf "INSTANCE" "Btn" "1:2") [] = (Ok recs, h')
    /\ map (seeRecord h') recs
       = [Seen.mkRecord (leaf "INSTANCE" "Btn" "1:2") 0 ["Btn"] None].
Proof. eexists _, _. split; reflexivity. Qed.

(** C5.  The locator returns, and its records are, in order, the nodes of
    the tree whose type is INSTANCE, one record for each; the level of a
    record is the number of INSTANCE nodes among the strict ancestors of its
    node. *)
Theorem C5_one_record_per_instance (root : Node.t) (h : Heap.t) :
  exists recs h',
    locate root h = (Ok recs, h')
    /\ map InstanceRecord.node recs = filter isInstance (preorder root)
    /\ List.length recs = List.length (filter isInstance (preorder root))
    /\ map (fun r => (InstanceRecord.node r, InstanceRecord.level r)) recs
       = map (fun p => (snd p, Z.of_nat (List.length (filter isInstance (fst p)))))
           (filter atInstance (walk [] root)).
Proof.
  destruct (locate_locates root h) as (recs & ext & Hrun & _ & Hsee).
  exists recs, (h ++ ext). split; [exact Hrun|].
  assert (Hnodes : map InstanceRecord.node recs = filter isInstance (preorder root)).
  { rewrite <- located_nodes, <- Hsee, map_map. reflexivity. }
  split; [exact Hnodes|]. split.
  - rewrite <- Hnodes. now rewrite List.length_map.
  - apply (f_equal (map (fun s => (Seen.node s, Seen.level s)))) in Hsee.
    unfold located in Hsee. rewrite !map_map in Hsee. exact Hsee.
Qed.

(** C10.  The [parentName] of a record is the name of the nearest INSTANCE
    among the strict ancestors of its node, and [null] when there is none. *)
Theorem C10_parentName_nearest_instance (root : Node.t) (h : Heap.t) :
  exists recs h',
    locate root h = (Ok recs, h')
    /\ map (fun r => (InstanceRecord.node r, InstanceRecord.parentName r)) recs
       = map (fun p => (snd p, option_map Node.name (nearestInstance (fst p))))
           (filter atInstance (walk [] root)).
Proof.
  destruct (locate_locates root h) as (recs & ext & Hrun & _ & Hsee).
  exists recs, (h ++ ext). split; [exact Hrun|].
  apply (f_equal (map (fun s => (Seen.node s, Seen.parentName s)))) in Hsee.
  unfold located in Hsee. rewrite !map_map in Hsee. simpl in Hsee.
  rewrite Hsee. apply map_ext. intros p. now rewrite last_or_null_instanceNames.
Qed.

(** ** The auditor *)

(** C3 (the code departs from the claim).  In the scenario (root R, below it
    the unlinked instance Btn, below that the unlinked instance Icon) the
    scan reports two issues, Btn then Icon, and the [parentId] of both is
    [null]: the search for Icon's parent looks for the last name of Icon's
    stored chain, which is Icon itself, at level 0. *)
Theorem C3_scenario_icon_has_no_parentId (h : Heap.t) :
  exists res h',
    scanFrameForComponents allLocal rootR h = (Ok res, h')
    /\ map (fun i => (Issue.name i, Issue.id i, Issue.parentId i)) (ScanResult.issues res)
       = [("Btn", "1:2", None); ("Icon", "1:3", None)]
    /\ map (fun i => Heap.get h' (Issue.parentPath i)) (ScanResult.issues res)
       = [["Btn"]; ["Btn"; "Icon"]].
Proof.
  destruct (scanFrameForComponents_audited allLocal rootR h) as (res & ext & Hrun & Hsee).
  exists res, (h ++ ext). split; [exact Hrun|].
  specialize (Hsee []). rewrite app_nil_r in Hsee.
  apply (f_equal Seen.issues) in Hsee. simpl in Hsee.
  split.
  - apply (f_equal (map (fun i => (Seen.name i, Seen.id i, Seen.parentId i)))) in Hsee.
    rewrite map_map in Hsee. exact Hsee.
  - apply (f_equal (map Seen.issuePath)) in Hsee.
    rewrite map_map in Hsee. exact Hsee.
Qed.

(** C4.  [isComponentLinked] never throws, and answers [true] exactly when
    the lookup settles with a main component whose [remote] is [true]; a
    lookup that returns nothing, throws, or finds a local component answers
    [false].  Whatever the lookups do, the scan returns a result that counts
    every located record and reports, in order, the records that are not
    linked. *)
Theorem C4_linked_iff_remote_true
    (env : Node.t -> outcome (option MainComponent.t)) (frame instance : Node.t)
    (h : Heap.t) :
  (exists b,
     isComponentLinked env instance h = (Ok b, h)
     /\ (b = true <->
         exists mc, env instance = Ok (Some mc) /\ MainComponent.remote mc = true)
     /\ (env instance = Ok None -> b = false)
     /\ (forall e, env instance = Throw e -> b = false)
     /\ (forall mc, env instance = Ok (Some mc) ->
                    MainComponent.remote mc = false -> b = false))
  /\ (exists recs res h',
        locate frame h = (Ok recs, h')
        /\ scanFrameForComponents env frame h = (Ok res, h')
        /\ ScanResult.totalComponents res = List.length recs
        /\ map Issue.id (ScanResult.issues res)
           = map (fun r => Node.id (InstanceRecord.node r))
               (filter (fun r =>
                          match fst (isComponentLinked env (InstanceRecord.node r) h') with
                          | Ok true => false
                          | _ => true
                          end) recs)).
Proof.
  split.
  - unfold isComponentLinked, try_catch, bind, await, ret.
    destruct (env instance) as [[[remote]|]|e] eqn:Henv; simpl.
    + exists (Bool.eqb remote true). split; [reflexivity|]. repeat split.
      * intros Hb. exists (MainComponent.mk remote). split; [reflexivity|].
        simpl. now destruct remote.
      * intros (mc & Hmc & Hremote). injection Hmc as <-. simpl in Hremote.
        now rewrite Hremote.
      * discriminate.
      * discriminate.
      * intros mc Hmc Hremote. injection Hmc as <-. simpl in Hremote.
        now rewrite Hremote.
    + exists false. split; [reflexivity|]. repeat split; try discriminate.
      intros (mc & Hmc & _). discriminate.
    + exists false. split; [reflexivity|]. repeat split; try discriminate.
      intros (mc & Hmc & _). discriminate.
  - destruct (scanFrameForComponents_run env frame h)
      as (recs & ext & Hloc & _ & _ & Hrun).
    eexists recs, _, (h ++ ext). split; [exact Hloc|]. split; [exact Hrun|].
    split; [reflexivity|]. simpl. rewrite map_map. simpl.
    f_equal. apply filter_ext. intros r.
    rewrite isComponentLinked_run. unfold unlinked. simpl.
    now destruct (classify env (InstanceRecord.node r)).
Qed.

(** C8.  The result of a scan counts the located records in
    [totalComponents] and the issues in [totalIssues]; the issues are as many
    as the records that are not linked, so [totalComponents] is [totalIssues]
    plus the number of linked records; [frameName] is the name of the root. *)
Theorem C8_totals (env : Node.t -> outcome (option MainComponent.t))
    (frame : Node.t) (h : Heap.t) :
  exists recs res h',
    locate frame h = (Ok recs, h')
    /\ scanFrameForComponents env frame h = (Ok res, h')
    /\ ScanResult.totalComponents res
       = ScanResult.totalIssues res
         + List.length (filter (fun r => classify env (InstanceRecord.node r)) recs)
    /\ ScanResult.totalComponents res = List.length recs
    /\ ScanResult.totalIssues res = List.length (ScanResult.issues res)
    /\ ScanResult.totalIssues res = List.length (filter (unlinked env) recs)
    /\ ScanResult.frameName res = Node.name frame.
Proof.
  destruct (scanFrameForComponents_run env frame h)
    as (recs & ext & Hloc & _ & _ & Hrun).
  eexists recs, _, (h ++ ext). split; [exact Hloc|]. split; [exact Hrun|].
  simpl. rewrite List.length_map. repeat split.
  unfold unlinked. clear. induction recs as [|r recs IH]; simpl; [reflexivity|].
  destruct (classify env (InstanceRecord.node r)); simpl; lia.
Qed.

(** C9.  Scanning the same tree twice in a row, with the same lookups, gives
    two results that read the same: same counts, same issues in the same
    order, same chains. *)
Theorem C9_scan_twice (env : Node.t -> outcome (option MainComponent.t))
    (frame : Node.t) (h : Heap.t) :
  exists res1 h1 res2 h2,
    scanFrameForComponents env frame h = (Ok res1, h1)
    /\ scanFrameForComponents env frame h1 = (Ok res2, h2)
    /\ seeResult h1 res1 = seeResult h2 res2
    /\ seeResult h2 res1 = seeResult h2 res2.
Proof.
  destruct (scanFrameForComponents_audited env frame h) as (res1 & ext1 & Hrun1 & Hsee1).
  destruct (scanFrameForComponents_audited env frame (h ++ ext1))
    as (res2 & ext2 & Hrun2 & Hsee2).
  exists res1, (h ++ ext1), res2, ((h ++ ext1) ++ ext2).
  split; [exact Hrun1|]. split; [exact Hrun2|].
  specialize (Hsee2 []). rewrite app_nil_r in Hsee2. rewrite Hsee2. split.
  - specialize (Hsee1 []). now rewrite app_nil_r in Hsee1.
  - apply Hsee1.
Qed.

Lemma find_first {A} (f : A -> bool) (l : list A) (x : A) :
  find f l = Some x ->
  exists l1 l2, l = l1 ++ x :: l2 /\ f x = true /\ Forall (fun y => f y = false) l1.
Proof.
  induction l as [|y l IH]; simpl; [discriminate|].
  destruct (f y) eqn:Hy.
  - intros [= ->]. exists [], l. auto.
  - intros Hfind. destruct (IH Hfind) as (l1 & l2 & -> & Hx & Hl1).
    exists (y :: l1), l2. auto.
Qed.

Lemma isParentOf_true (path : list string) (r inst : InstanceRecord.t) :
  path <> [] ->
  isParentOf path r inst = true <->
  Some (Node.name (InstanceRecord.node inst)) = last_or_null path
  /\ InstanceRecord.level inst = (InstanceRecord.level r - 1)%Z.
Proof.
  intros Hpath. unfold isParentOf. rewrite andb_true_iff, String.eqb_eq, Z.eqb_eq.
  destruct path as [|x path]; [contradiction|]. unfold last_or_null.
  split; intros [Hname Hlevel]; split; congruence.
Qed.

(** C2, as the code has it.  An issue's [parentId] is set exactly when some
    located record, linked or not, has a node named as the last entry of the
    issue's stored chain and a level one less than the issue's; it is then
    the id of the first such record in traversal order. *)
Theorem C2_parentId_by_stored_name_and_level
    (env : Node.t -> outcome (option MainComponent.t)) (frame : Node.t) (h : Heap.t) :
  exists recs res h',
    locate frame h = (Ok recs, h')
    /\ scanFrameForComponents env frame h = (Ok res, h')
    /\ Forall (fun i =>
         let candidate r :=
           Some (Node.name (InstanceRecord.node r))
           = last_or_null (Heap.get h' (Issue.parentPath i))
           /\ InstanceRecord.level r = (Issue.level i - 1)%Z in
         (Issue.parentId i <> None <-> exists r, In r recs /\ candidate r)
         /\ (forall pid, Issue.parentId i = Some pid ->
               exists l1 r l2,
                 recs = l1 ++ r :: l2 /\ candidate r
                 /\ Node.id (InstanceRecord.node r) = pid
                 /\ Forall (fun r' => ~ candidate r') l1))
         (ScanResult.issues res).
Proof.
  destruct (scanFrameForComponents_run env frame h)
    as (recs & ext & Hloc & _ & _ & Hrun).
  eexists recs, _, (h ++ ext). split; [exact Hloc|]. split; [exact Hrun|].
  simpl. apply Forall_map, Forall_forall. intros r _.
  unfold issueFor, makeIssue, findParentId. simpl.
  destruct (Heap.get (h ++ ext) (InstanceRecord.parentPath r)) as [|x path] eqn:Hpath.
  - split.
    + split; [congruence|]. intros (r' & _ & Hname & _). discriminate.
    + discriminate.
  - assert (Hne : x :: path <> []) by discriminate.
    destruct (find (isParentOf (x :: path) r) recs) as [parent|] eqn:Hfind.
    + destruct (find_first _ _ _ Hfind) as (l1 & l2 & Hrecs & Hparent & Hl1).
      apply isParentOf_true in Hparent; [|exact Hne].
      split.
      * split; [|discriminate]. intros _. exists parent. split; [|exact Hparent].
        rewrite Hrecs. apply in_or_app. right. now left.
      * intros pid [= <-]. exists l1, parent, l2. repeat split; try tauto.
        eapply Forall_impl; [|exact Hl1]. intros r' Hr' Hcand.
        apply isParentOf_true in Hcand; [congruence | exact Hne].
    + split; [|discriminate].
      split; [congruence|]. intros (r' & Hin & Hcand).
      apply isParentOf_true in Hcand; [|exact Hne].
      pose proof (find_none _ _ Hfind r' Hin). congruence.
Qed.

(** C2 as stated fails.  In the document R > Btn (from a library) > Btn (local)
    the inner Btn is the only issue and its [parentId] is the id of the outer
    Btn, although no located record named as its nearest instance ancestor,
    one level up, is unlinked. *)
Lemma C2_parent_need_not_be_an_issue :
  exists recs res h',
    locate rootTwin [] = (Ok recs, h')
    /\ scanFrameForComponents outerLinked rootTwin [] = (Ok res, h')
    /\ ~ (forall i, In i (ScanResult.issues res) ->
            (Issue.parentId i <> None <->
             exists r, In r recs
                       /\ Node.id (InstanceRecord.node r) <> Issue.id i
                       /\ Some (Node.name (InstanceRecord.node r)) = Issue.parentName i
                       /\ InstanceRecord.level r = (Issue.level i - 1)%Z
                       /\ classify outerLinked (InstanceRecord.node r) = false)).
Proof.
  eexists _, _, _. split; [reflexivity|]. split; [reflexivity|].
  intros Hclaim.
  destruct (Hclaim _ (or_introl eq_refl)) as [Hset _].
  destruct Hset as (r & Hin & _ & _ & Hlevel & Hclass); [discriminate|].
  destruct Hin as [<- | [<- | []]]; simpl in *; discriminate.
Qed.

(** C6.  The records of the locator are the INSTANCE nodes of the tree in
    depth-first pre-order, children in their order, so the record of an
    instance comes before the record of every instance below it; the issues
    of the scan are the unlinked records, in the order of the records. *)
Theorem C6_preorder_and_issue_order
    (env : Node.t -> outcome (option MainComponent.t)) (frame : Node.t) (h : Heap.t) :
  exists recs res h',
    locate frame h = (Ok recs, h')
    /\ scanFrameForComponents env frame h = (Ok res, h')
    /\ map InstanceRecord.node recs = filter isInstance (preorder frame)
    /\ (forall a b,
          In a (preorder frame) -> isInstance a = true ->
          In b (descendants a) -> isInstance b = true ->
          exists l1 ra l2 rb l3,
            recs = l1 ++ ra :: l2 ++ rb :: l3
            /\ InstanceRecord.node ra = a /\ InstanceRecord.node rb = b)
    /\ ScanResult.issues res = map (issueFor h' recs) (filter (unlinked env) recs)
    /\ map Issue.id (ScanResult.issues res)
       = map (fun r => Node.id (InstanceRecord.node r)) (filter (unlinked env) recs).
Proof.
  destruct (scanFrameForComponents_run env frame h)
    as (recs & ext & Hloc & _ & Hsee & Hrun).
  eexists recs, _, (h ++ ext). split; [exact Hloc|]. split; [exact Hrun|].
  assert (Hnodes : map InstanceRecord.node recs = filter isInstance (preorder frame)).
  { rewrite <- located_nodes, <- Hsee, map_map. reflexivity. }
  split; [exact Hnodes|]. split; [|split; [reflexivity | simpl; now rewrite map_map]].
  intros a b Ha Hia Hb Hib.
  destruct (preorder_In_split frame a Ha) as (l1 & l3 & Hsplit).
  unfold descendants in Hb. rewrite (preorder_eq a) in Hb, Hsplit. simpl in Hb.
  apply in_split in Hb. destruct Hb as (m1 & m2 & Hm).
  rewrite Hm in Hsplit. rewrite Hsplit in Hnodes.
  rewrite filter_app in Hnodes. simpl in Hnodes. rewrite Hia in Hnodes.
  rewrite !filter_app in Hnodes. simpl in Hnodes. rewrite Hib in Hnodes.
  rewrite <- !app_assoc in Hnodes. simpl in Hnodes.
  exact (map_eq_two _ _ _ _ _ _ _ Hnodes).
Qed.

Lemma C6_btn_before_icon :
  exists recs,
    fst (locate rootR []) = Ok recs
    /\ exists l1 ra l2 rb l3,
         recs = l1 ++ ra :: l2 ++ rb :: l3
         /\ InstanceRecord.node ra = btn /\ InstanceRecord.node rb = icon.
Proof.
  destruct (C6_preorder_and_issue_order allLocal rootR [])
    as (recs & res & h' & Hloc & _ & _ & Hbefore & _).
  exists recs. split.
  - rewrite Hloc. reflexivity.
  - apply Hbefore.
    + simpl. right. left. reflexivity.
    + reflexivity.
    + simpl. left. reflexivity.
    + reflexivity.
Defined.

(** ** The message handler *)

Lemma scanFrameForComponents_allocates
    (env : Node.t -> outcome (option MainComponent.t)) (frame : Node.t) (h : Heap.t) :
  exists res h',
    scanFrameForComponents env frame h = (Ok res, h') /\ List.length h < List.length h'.
Proof.
  destruct (findAllComponentInstances_locates frame [] 0%Z (List.length h) (h ++ [[]]))
    as (recs & ext & Hfind & _ & _).
  - now rewrite get_app_new.
  - reflexivity.
  - destruct (scan_loop_run env recs ((h ++ [[]]) ++ ext) recs ([], [])) as (m & Hm).
    eexists _, ((h ++ [[]]) ++ ext). split.
    + unfold scanFrameForComponents, locate. unfold bind at 1. unfold bind at 1.
      unfold new_array at 1. rewrite Hfind. unfold bind at 1. rewrite Hm. reflexivity.
    + rewrite !length_app. simpl. lia.
Qed.

(** C7.  A scan request with an empty selection, or with a first selected
    node whose type is none of FRAME, COMPONENT and COMPONENT_SET, is answered
    with an error message only, and nothing is traversed (no array is
    allocated); otherwise the first selected node is scanned and the result
    of the scan is posted. *)
Theorem C7_invalid_root_rejected
    (env : Node.t -> outcome (option MainComponent.t))
    (getNodeById : string -> outcome (option Node.t)) (h : Heap.t) :
  (exists e,
     onmessage env getNodeById [] ScanFrame h = (Ok [PostMessage (ScanResultError e)], h))
  /\ (forall n rest,
        Node.type n <> "FRAME" -> Node.type n <> "COMPONENT" ->
        Node.type n <> "COMPONENT_SET" ->
        exists e,
          onmessage env getNodeById (n :: rest) ScanFrame h
          = (Ok [PostMessage (ScanResultError e)], h))
  /\ (forall n rest,
        Node.type n = "FRAME" \/ Node.type n = "COMPONENT"
        \/ Node.type n = "COMPONENT_SET" ->
        exists res h',
          scanFrameForComponents env n h = (Ok res, h')
          /\ List.length h < List.length h'
          /\ onmessage env getNodeById (n :: rest) ScanFrame h
             = (Ok [PostMessage (ScanResultOk res)], h')).
Proof.
  split; [|split].
  - eexists. reflexivity.
  - intros n rest Hf Hc Hs. eexists. simpl. unfold isContainer.
    apply String.eqb_neq in Hf, Hc, Hs. rewrite Hf, Hc, Hs. reflexivity.
  - intros n rest Htype.
    destruct (scanFrameForComponents_allocates env n h) as (res & h' & Hrun & Hlen).
    exists res, h'. split; [exact Hrun|]. split; [exact Hlen|].
    simpl. unfold isContainer.
    replace ((Node.type n =? "FRAME") || (Node.type n =? "COMPONENT")
             || (Node.type n =? "COMPONENT_SET")) with true.
    + simpl. unfold bind. rewrite Hrun. reflexivity.
    + symmetry. rewrite !orb_true_iff, !String.eqb_eq. tauto.
Qed.

Lemma C7_rectangle_rejected_frame_scanned :
  (exists e,
     onmessage allLocal noNode [rectangle] ScanFrame []
     = (Ok [PostMessage (ScanResultError e)], []))
  /\ (exists res h',
        onmessage allLocal noNode [rootR] ScanFrame [] = (Ok [PostMessage (ScanResultOk res)], h')).
Proof.
  destruct (C7_invalid_root_rejected allLocal noNode []) as (_ & Hreject & Haccept).
  split.
  - apply (Hreject rectangle []); discriminate.
  - destruct (Haccept rootR []) as (res & h' & _ & _ & Hpost).
    + left. reflexivity.
    + exists res, h'. exact Hpost.
Defined.

(** * Further properties of the code *)

(** ** The store discipline of the locator *)

Lemma for_push_store (body : Node.t -> M (list InstanceRecord.t))
    (size : Node.t -> nat) (cs : list Node.t) :
  Forall (fun c => forall h,
            exists rs ext,
              body c h = (Ok rs, h ++ ext)
              /\ List.length ext = size c
              /\ Forall (fun r => List.length h <= InstanceRecord.parentPath r
                                  < List.length (h ++ ext)) rs
              /\ NoDup (map InstanceRecord.parentPath rs)) cs ->
  forall acc h,
    exists rs ext,
      for_push body cs acc h = (Ok (acc ++ rs), h ++ ext)
      /\ List.length ext = list_sum (map size cs)
      /\ Forall (fun r => List.length h <= InstanceRecord.parentPath r
                          < List.length (h ++ ext)) rs
      /\ NoDup (map InstanceRecord.parentPath rs).
Proof.
  induction 1 as [|c cs Hc _ IH]; intros acc h.
  - exists [], []. simpl. unfold ret. rewrite !app_nil_r.
    repeat split; constructor.
  - destruct (Hc h) as (rs1 & e1 & Hrun1 & Hsize1 & Hrange1 & Hnodup1).
    destruct (IH (acc ++ rs1) (h ++ e1)) as (rs2 & e2 & Hrun2 & Hsize2 & Hrange2 & Hnodup2).
    exists (rs1 ++ rs2), (e1 ++ e2). simpl. unfold bind at 1. rewrite Hrun1, Hrun2.
    rewrite !app_assoc. repeat split.
    + rewrite length_app. lia.
    + apply Forall_app. split.
      * eapply Forall_impl; [|exact Hrange1]. intros r Hr. simpl in Hr.
        rewrite !length_app in *. lia.
      * eapply Forall_impl; [|exact Hrange2]. intros r Hr. simpl in Hr.
        rewrite !length_app in *. lia.
    + rewrite map_app. apply NoDup_app; [exact Hnodup1 | exact Hnodup2 |].
      intros x Hx1 Hx2.
      apply in_map_iff in Hx1. destruct Hx1 as (r1 & <- & Hr1).
      apply in_map_iff in Hx2. destruct Hx2 as (r2 & Heq & Hr2).
      rewrite Forall_forall in Hrange1, Hrange2.
      specialize (Hrange1 r1 Hr1). specialize (Hrange2 r2 Hr2). simpl in *.
      rewrite !length_app in *. lia.
Qed.

Lemma length_preorder_children (n : Node.t) :
  List.length (preorder n) = S (list_sum (map (fun c => List.length (preorder c)) (childrenOf n))).
Proof.
  rewrite preorder_eq. simpl. f_equal.
  induction (childrenOf n) as [|c cs IH]; simpl; [reflexivity|].
  now rewrite length_app, IH.
Qed.

Lemma findAllComponentInstances_store (n : Node.t) :
  forall level p h,
    exists rs ext,
      findAllComponentInstances n level p h = (Ok rs, h ++ ext)
      /\ List.length ext = List.length (preorder n)
      /\ Forall (fun r => List.length h <= InstanceRecord.parentPath r
                          < List.length (h ++ ext)) rs
      /\ NoDup (map InstanceRecord.parentPath rs).
Proof.
  induction n as [n IH] using Node_ind_children.
  intros level p h.
  rewrite findAllComponentInstances_eq, length_preorder_children.
  unfold bind at 1, read at 1. unfold bind at 1, new_array at 1.
  unfold bind at 1.
  destruct (isInstance n) eqn:Einst.
  - unfold bind at 1, read at 1. unfold bind at 1, push at 1, ret at 1.
    rewrite get_app_new, modify_new.
    destruct (for_push_store
                (fun child => findAllComponentInstances child (level + 1) (List.length h))
                (fun c => List.length (preorder c)) (childrenOf n))
      with (acc := [InstanceRecord.mk n level (List.length h) (last_or_null (Heap.get h p))])
           (h := h ++ [Heap.get h p ++ [Node.name n]])
      as (rs & ext & Hrun & Hsize & Hrange & Hnodup).
    + eapply Forall_impl; [|exact IH]. intros c Hc h'. apply Hc.
    + eexists _, ([_] ++ ext). rewrite app_assoc. split; [exact Hrun|].
      split; [simpl; now rewrite Hsize|]. split.
      * constructor.
        -- simpl. rewrite !length_app. simpl. lia.
        -- eapply Forall_impl; [|exact Hrange]. intros r Hr. simpl in Hr.
           rewrite !length_app in *. simpl in *. lia.
      * simpl. constructor; [|exact Hnodup].
        intros Hin. apply in_map_iff in Hin. destruct Hin as (r & Heq & Hr).
        rewrite Forall_forall in Hrange. specialize (Hrange r Hr). simpl in Hrange.
        rewrite !length_app in Hrange. simpl in Hrange. lia.
  - unfold ret at 1.
    destruct (for_push_store
                (fun child => findAllComponentInstances child (level + 0) (List.length h))
                (fun c => List.length (preorder c)) (childrenOf n))
      with (acc := @nil InstanceRecord.t) (h := h ++ [Heap.get h p])
      as (rs & ext & Hrun & Hsize & Hrange & Hnodup).
    + eapply Forall_impl; [|exact IH]. intros c Hc h'. apply Hc.
    + eexists _, ([_] ++ ext). rewrite app_assoc. split; [exact Hrun|].
      split; [simpl; now rewrite Hsize|]. split; [|exact Hnodup].
      eapply Forall_impl; [|exact Hrange]. intros r Hr. simpl in Hr.
      rewrite !length_app in *. simpl in *. lia.
Qed.

Lemma locate_store (root : Node.t) (h : Heap.t) :
  exists recs ext,
    locate root h = (Ok recs, h ++ ext)
    /\ List.length ext = S (List.length (preorder root))
    /\ Forall (fun r => List.length h < InstanceRecord.parentPath r
                        < List.length (h ++ ext)) recs
    /\ NoDup (map InstanceRecord.parentPath recs).
Proof.
  unfold locate, bind, new_array.
  destruct (findAllComponentInstances_store root 0%Z (List.length h) (h ++ [[]]))
    as (rs & ext & Hrun & Hsize & Hrange & Hnodup).
  exists rs, ([[]] ++ ext). rewrite app_assoc. split; [exact Hrun|].
  split; [simpl; now rewrite Hsize|]. split; [|exact Hnodup].
  eapply Forall_impl; [|exact Hrange]. intros r Hr. simpl in Hr.
  rewrite !length_app in *. simpl in *. lia.
Qed.


(** X2.  The arrays stored in the records are fresh (none existed before the
    call, none is the default [parentPath]) and pairwise distinct: no two
    records share their chain. *)
Theorem X2_record_chains_fresh_and_distinct (root : Node.t) (h : Heap.t) :
  exists recs h',
    locate root h = (Ok recs, h')
    /\ Forall (fun r => List.length h < InstanceRecord.parentPath r < List.length h') recs
    /\ NoDup (map InstanceRecord.parentPath recs).
Proof.
  destruct (locate_store root h) as (recs & ext & Hloc & _ & Hrange & Hnodup).
  now exists recs, (h ++ ext).
Qed.

(** ** The locator called with any level and parent path *)



(** ** Invariants of the records *)

(** X4.  In every record of a scan's locator pass the level is not negative,
    the stored chain has one name more than the level, and [parentName] is
    [null] exactly when the level is 0. *)
Theorem X4_level_chain_parentName (root : Node.t) (h : Heap.t) :
  exists recs h',
    locate root h = (Ok recs, h')
    /\ Forall (fun r =>
         (0 <= InstanceRecord.level r)%Z
         /\ Z.of_nat (List.length (Heap.get h' (InstanceRecord.parentPath r)))
            = (InstanceRecord.level r + 1)%Z
         /\ (InstanceRecord.parentName r = None <-> InstanceRecord.level r = 0%Z)) recs.
Proof.
  destruct (locate_locates root h) as (recs & ext & Hrun & _ & Hsee).
  exists recs, (h ++ ext). split; [exact Hrun|].
  apply map_eq_Forall in Hsee. eapply Forall_impl; [|exact Hsee].
  intros r ([ancestors n] & Hr). unfold seeRecord, emitted in Hr.
  injection Hr as _ Hlevel Hchain Hname. simpl in *.
  rewrite Hchain, Hlevel, Hname. unfold instanceNames.
  rewrite length_app, length_map. simpl.
  split; [lia|]. split; [lia|].
  destruct (filter isInstance ancestors) as [|a l]; simpl.
  - split; reflexivity.
  - split; [discriminate | lia].
Qed.

Lemma walk_children_have_root_above (root c : Node.t) (p : list Node.t * Node.t) :
  In p (walk [root] c) -> exists below, fst p = root :: below.
Proof.
  destruct p as [ancestors n]. intros Hin.
  destruct (walk_ancestors_above c [root] ancestors n Hin) as (below & -> & _).
  now exists below.
Qed.

Lemma map_eq_Forall_In {A B C} (f : A -> C) (g : B -> C) (l : list A) :
  forall ps, map f l = map g ps -> Forall (fun x => exists p, In p ps /\ f x = g p) l.
Proof.
  induction l as [|x l IH]; intros ps Heq; [constructor|].
  destruct ps as [|p ps]; [discriminate|].
  simpl in Heq. apply (f_equal (fun m => (hd_error m, tl m))) in Heq. simpl in Heq.
  assert (Hx : f x = g p) by congruence.
  assert (Hrest : map f l = map g ps) by congruence.
  constructor.
  - exists p. split; [now left | exact Hx].
  - eapply Forall_impl; [|exact (IH ps Hrest)].
    intros y (q & Hq & Hy). exists q. split; [now right | exact Hy].
Qed.

Lemma located_instance_root (root : Node.t) :
  isInstance root = true ->
  located root
  = emitted ([], root)
    :: map emitted (filter atInstance (flat_map (walk [root]) (childrenOf root))).
Proof.
  intros Hroot. unfold located. rewrite walk_eq. simpl.
  unfold atInstance at 1. simpl. now rewrite Hroot.
Qed.

(** X5.  When the root itself is an INSTANCE, its record comes first, with
    level 0 and no [parentName]; every other record has a level of at least 1
    and a chain that starts with the root's name. *)
Theorem X5_instance_root_comes_first (root : Node.t) (h : Heap.t) :
  isInstance root = true ->
  exists r rest h',
    locate root h = (Ok (r :: rest), h')
    /\ InstanceRecord.node r = root
    /\ InstanceRecord.level r = 0%Z
    /\ InstanceRecord.parentName r = None
    /\ Forall (fun r' =>
         (1 <= InstanceRecord.level r')%Z
         /\ exists tail, Heap.get h' (InstanceRecord.parentPath r')
                         = Node.name root :: tail) rest.
Proof.
  intros Hroot.
  destruct (locate_locates root h) as (recs & ext & Hrun & _ & Hsee).
  rewrite (located_instance_root root Hroot) in Hsee.
  destruct recs as [|r rest]; [discriminate|].
  change (map (seeRecord (h ++ ext)) (r :: rest))
    with (seeRecord (h ++ ext) r :: map (seeRecord (h ++ ext)) rest) in Hsee.
  apply (f_equal (fun m => (hd_error m, tl m))) in Hsee. simpl in Hsee.
  assert (Hr : seeRecord (h ++ ext) r = emitted ([], root)) by congruence.
  assert (Hrest : map (seeRecord (h ++ ext)) rest
                  = map emitted (filter atInstance
                                   (flat_map (walk [root]) (childrenOf root))))
    by congruence.
  clear Hsee.
  exists r, rest, (h ++ ext). split; [exact Hrun|].
  split; [exact (f_equal Seen.node Hr)|].
  split; [exact (f_equal Seen.level Hr)|].
  split; [exact (f_equal Seen.parentName Hr)|].
  apply map_eq_Forall_In in Hrest. eapply Forall_impl; [|exact Hrest].
  intros r' (q & Hq & Hr').
  apply filter_In in Hq. destruct Hq as [Hq _].
  apply in_flat_map in Hq. destruct Hq as (c & _ & Hq).
  destruct (walk_children_have_root_above root c q Hq) as (below & Hbelow).
  pose proof (f_equal Seen.level Hr') as Hlevel.
  pose proof (f_equal Seen.parentPath Hr') as Hchain.
  unfold seeRecord, emitted in Hlevel, Hchain. simpl in Hlevel, Hchain.
  rewrite Hbelow in Hlevel, Hchain. unfold instanceNames in Hchain.
  simpl in Hlevel, Hchain. rewrite Hroot in Hlevel, Hchain.
  simpl in Hlevel, Hchain. split.
  - rewrite Hlevel. lia.
  - eexists. exact Hchain.
Qed.

Lemma X5_btn_as_root :
  exists r rest h',
    locate btn [] = (Ok (r :: rest), h')
    /\ InstanceRecord.node r = btn
    /\ InstanceRecord.level r = 0%Z
    /\ InstanceRecord.parentName r = None
    /\ Forall (fun r' =>
         (1 <= InstanceRecord.level r')%Z
         /\ exists tail, Heap.get h' (InstanceRecord.parentPath r')
                         = Node.name btn :: tail) rest.
Proof. apply (X5_instance_root_comes_first btn []). reflexivity. Defined.

(** ** The report, node by node *)

Lemma filter_filter {A} (f g : A -> bool) (l : list A) :
  filter f (filter g l) = filter (fun x => g x && f x) l.
Proof.
  induction l as [|x l IH]; simpl; [reflexivity|].
  destruct (g x); simpl; [destruct (f x)|]; now rewrite IH.
Qed.

Lemma scanFrameForComponents_by_nodes
    (env : Node.t -> outcome (option MainComponent.t)) (frame : Node.t) (h : Heap.t) :
  exists res h',
    scanFrameForComponents env frame h = (Ok res, h')
    /\ ScanResult.totalComponents res = List.length (filter isInstance (preorder frame))
    /\ ScanResult.totalIssues res
       = List.length (filter (unlinkedInstance env) (preorder frame))
    /\ map (fun i => (Issue.id i, Issue.name i, Issue.type i)) (ScanResult.issues res)
       = map (fun n => (Node.id n, Node.name n, "NOT_LINKED"))
           (filter (unlinkedInstance env) (preorder frame))
    /\ ScanResult.frameName res = Node.name frame.
Proof.
  destruct (scanFrameForComponents_run env frame h)
    as (recs & ext & _ & _ & Hsee & Hrun).
  assert (Hnodes : map InstanceRecord.node recs = filter isInstance (preorder frame)).
  { rewrite <- located_nodes, <- Hsee, map_map. reflexivity. }
  assert (Hunlinked : map InstanceRecord.node (filter (unlinked env) recs)
                      = filter (unlinkedInstance env) (preorder frame)).
  { unfold unlinkedInstance. rewrite <- filter_filter, <- Hnodes.
    now rewrite (filter_map_swap (fun n => negb (classify env n)) InstanceRecord.node). }
  eexists _, (h ++ ext). split; [exact Hrun|]. simpl.
  rewrite <- Hnodes, <- Hunlinked, !length_map, !map_map. simpl.
  repeat split.
Qed.

(** X6.  The report is sound and complete node by node: every issue carries
    the id and the name of an INSTANCE node of the scanned tree that
    [isComponentLinked] does not accept, with type NOT_LINKED, and every such
    node of the tree has an issue. *)
Theorem X6_issues_are_the_unlinked_instances
    (env : Node.t -> outcome (option MainComponent.t)) (frame : Node.t) (h : Heap.t) :
  exists res h',
    scanFrameForComponents env frame h = (Ok res, h')
    /\ Forall (fun i =>
         Issue.type i = "NOT_LINKED"
         /\ exists n, In n (preorder frame) /\ isInstance n = true
                      /\ fst (isComponentLinked env n h') = Ok false
                      /\ Node.id n = Issue.id i /\ Node.name n = Issue.name i)
         (ScanResult.issues res)
    /\ (forall n, In n (preorder frame) -> isInstance n = true ->
                  fst (isComponentLinked env n h') = Ok false ->
                  exists i, In i (ScanResult.issues res)
                            /\ Issue.id i = Node.id n /\ Issue.name i = Node.name n).
Proof.
  destruct (scanFrameForComponents_by_nodes env frame h)
    as (res & h' & Hrun & _ & _ & Hissues & _).
  exists res, h'. split; [exact Hrun|]. split.
  - apply map_eq_Forall_In in Hissues. eapply Forall_impl; [|exact Hissues].
    intros i (n & Hn & Hi). apply filter_In in Hn. destruct Hn as [Hn Hun].
    unfold unlinkedInstance in Hun. apply andb_true_iff in Hun.
    destruct Hun as [Hinst Hclass]. apply negb_true_iff in Hclass.
    injection Hi as Hid Hname Htype. split; [exact Htype|].
    exists n. rewrite isComponentLinked_run. simpl. rewrite Hclass. auto.
  - intros n Hn Hinst Hrun'. rewrite isComponentLinked_run in Hrun'. simpl in Hrun'.
    injection Hrun' as Hclass.
    assert (Hin : In (Node.id n, Node.name n, "NOT_LINKED")
                    (map (fun i => (Issue.id i, Issue.name i, Issue.type i))
                       (ScanResult.issues res))).
    { rewrite Hissues. apply in_map_iff. exists n. split; [reflexivity|].
      apply filter_In. split; [exact Hn|].
      unfold unlinkedInstance. now rewrite Hinst, Hclass. }
    apply in_map_iff in Hin. destruct Hin as (i & Hi & Hini).
    injection Hi as Hid Hname _. now exists i.
Qed.

Lemma X6_rootR_all_local :
  exists i, Issue.id i = Node.id icon /\ Issue.name i = Node.name icon.
Proof.
  destruct (X6_issues_are_the_unlinked_instances allLocal rootR [])
    as (res & h' & _ & _ & Hcomplete).
  destruct (Hcomplete icon) as (i & _ & Hi).
  - simpl. right. right. left. reflexivity.
  - reflexivity.
  - reflexivity.
  - now exists i.
Defined.

Lemma filter_nil_when {A} (f : A -> bool) (l : list A) :
  (forall x, In x l -> f x = false) -> filter f l = [].
Proof.
  induction l as [|x l IH]; intros Hf; simpl; [reflexivity|].
  rewrite (Hf x (or_introl eq_refl)). apply IH. intros y Hy. apply Hf. now right.
Qed.

Lemma filter_same_when {A} (f g : A -> bool) (l : list A) :
  (forall x, In x l -> f x = g x) -> filter f l = filter g l.
Proof.
  induction l as [|x l IH]; intros Hf; simpl; [reflexivity|].
  rewrite (Hf x (or_introl eq_refl)), IH; [reflexivity|].
  intros y Hy. apply Hf. now right.
Qed.

(** X7.  Scanning a tree that holds no INSTANCE node gives the empty report:
    both totals are 0 and there is no issue. *)
Theorem X7_no_instance_empty_report
    (env : Node.t -> outcome (option MainComponent.t)) (frame : Node.t) (h : Heap.t) :
  (forall n, In n (preorder frame) -> isInstance n = false) ->
  exists h',
    scanFrameForComponents env frame h
    = (Ok (ScanResult.mk 0 0 [] (Node.name frame)), h').
Proof.
  intros Hnone.
  destruct (scanFrameForComponents_by_nodes env frame h)
    as ([total nissues issues fname] & h' & Hrun & Htotal & Hnissues & Hissues & Hname).
  simpl in *.
  rewrite (filter_nil_when isInstance _ Hnone) in Htotal.
  rewrite (filter_nil_when (unlinkedInstance env)) in Hnissues, Hissues.
  - destruct issues; [|discriminate]. simpl in *. subst. now exists h'.
  - intros n Hn. unfold unlinkedInstance. now rewrite (Hnone n Hn).
  - intros n Hn. unfold unlinkedInstance. now rewrite (Hnone n Hn).
Qed.

Lemma X7_plain_frame :
  exists h',
    scanFrameForComponents allLocal plainFrame []
    = (Ok (ScanResult.mk 0 0 [] "Empty"), h').
Proof.
  apply (X7_no_instance_empty_report allLocal plainFrame []).
  intros n [<- | [<- | []]]; reflexivity.
Defined.

(** X8.  When the lookup of every INSTANCE node of the tree settles with a
    remote main component, the report has no issue and still counts every
    instance. *)
Theorem X8_all_remote_no_issue
    (env : Node.t -> outcome (option MainComponent.t)) (frame : Node.t) (h : Heap.t) :
  (forall n, In n (preorder frame) -> isInstance n = true ->
             env n = Ok (Some (MainComponent.mk true))) ->
  exists h',
    scanFrameForComponents env frame h
    = (Ok (ScanResult.mk (List.length (filter isInstance (preorder frame))) 0 []
             (Node.name frame)), h').
Proof.
  intros Hremote.
  destruct (scanFrameForComponents_by_nodes env frame h)
    as ([total nissues issues fname] & h' & Hrun & Htotal & Hnissues & Hissues & Hname).
  simpl in *.
  rewrite (filter_nil_when (unlinkedInstance env)) in Hnissues, Hissues.
  - destruct issues; [|discriminate]. simpl in *. subst. now exists h'.
  - intros n Hn. unfold unlinkedInstance. destruct (isInstance n) eqn:Hinst; [|reflexivity].
    unfold classify, isComponentLinked, try_catch, bind, await, ret.
    now rewrite (Hremote n Hn Hinst).
  - intros n Hn. unfold unlinkedInstance. destruct (isInstance n) eqn:Hinst; [|reflexivity].
    unfold classify, isComponentLinked, try_catch, bind, await, ret.
    now rewrite (Hremote n Hn Hinst).
Qed.

Lemma X8_rootR_all_library :
  exists h',
    scanFrameForComponents allLibrary rootR [] = (Ok (ScanResult.mk 2 0 [] "R"), h').
Proof.
  apply (X8_all_remote_no_issue allLibrary rootR []). intros n _ _. reflexivity.
Defined.

(** X9.  When no lookup of an INSTANCE node of the tree settles with a remote
    main component (it throws, returns nothing, or finds a local component),
    every instance is reported: the issues are the INSTANCE nodes of the tree
    in pre-order, and the two totals are equal. *)
Theorem X9_none_remote_all_reported
    (env : Node.t -> outcome (option MainComponent.t)) (frame : Node.t) (h : Heap.t) :
  (forall n mc, In n (preorder frame) -> isInstance n = true ->
                env n = Ok (Some mc) -> MainComponent.remote mc = false) ->
  exists res h',
    scanFrameForComponents env frame h = (Ok res, h')
    /\ map Issue.id (ScanResult.issues res)
       = map Node.id (filter isInstance (preorder frame))
    /\ ScanResult.totalIssues res = ScanResult.totalComponents res.
Proof.
  intros Hnone.
  destruct (scanFrameForComponents_by_nodes env frame h)
    as (res & h' & Hrun & Htotal & Hnissues & Hissues & _).
  assert (Hsame : filter (unlinkedInstance env) (preorder frame)
                  = filter isInstance (preorder frame)).
  { apply filter_same_when. intros n Hn. unfold unlinkedInstance.
    destruct (isInstance n) eqn:Hinst; [|reflexivity]. simpl.
    unfold classify, isComponentLinked, try_catch, bind, await, ret.
    destruct (env n) as [[[remote]|]|e] eqn:Henv; try reflexivity.
    pose proof (Hnone n _ Hn Hinst Henv) as Hlocal. simpl in Hlocal.
    now rewrite Hlocal. }
  exists res, h'. split; [exact Hrun|]. split.
  - apply (f_equal (map (fun t => fst (fst t)))) in Hissues.
    rewrite !map_map in Hissues. simpl in Hissues. rewrite <- Hsame. exact Hissues.
  - now rewrite Hnissues, Htotal, Hsame.
Qed.

Lemma X9_rootR_all_local :
  exists res h',
    scanFrameForComponents allLocal rootR [] = (Ok res, h')
    /\ map Issue.id (ScanResult.issues res)
       = map Node.id (filter isInstance (preorder rootR))
    /\ ScanResult.totalIssues res = ScanResult.totalComponents res.
Proof.
  apply (X9_none_remote_all_reported allLocal rootR []).
  intros n mc _ _ Henv. injection Henv as <-. reflexivity.
Defined.

(** ** When an issue gets a parent id *)

Lemma last_or_null_snoc (front : list string) (x : string) :
  last_or_null (front ++ [x]) = Some x.
Proof.
  unfold last_or_null. destruct (front ++ [x]) eqn:Heq.
  - now destruct front.
  - rewrite <- Heq. now rewrite last_last.
Qed.

Lemma seen_record_shape (h : Heap.t) (recs : list InstanceRecord.t) (root : Node.t) :
  map (seeRecord h) recs = located root ->
  Forall (fun r =>
            (0 <= InstanceRecord.level r)%Z
            /\ exists front,
                 Heap.get h (InstanceRecord.parentPath r)
                 = front ++ [Node.name (InstanceRecord.node r)]) recs.
Proof.
  intros Hsee. apply map_eq_Forall in Hsee. eapply Forall_impl; [|exact Hsee].
  intros r (p & Hr).
  pose proof (f_equal Seen.node Hr) as Hnode.
  pose proof (f_equal Seen.level Hr) as Hlevel.
  pose proof (f_equal Seen.parentPath Hr) as Hchain.
  simpl in Hnode, Hlevel, Hchain. split; [rewrite Hlevel; lia|].
  exists (instanceNames (fst p)). now rewrite Hchain, Hnode.
Qed.

Lemma scanFrameForComponents_parentIds
    (env : Node.t -> outcome (option MainComponent.t)) (frame : Node.t) (h : Heap.t) :
  exists recs res h',
    locate frame h = (Ok recs, h')
    /\ scanFrameForComponents env frame h = (Ok res, h')
    /\ map InstanceRecord.node recs = filter isInstance (preorder frame)
    /\ Forall (fun r => (0 <= InstanceRecord.level r)%Z) recs
    /\ Forall (fun i =>
         (forall pid, Issue.parentId i = Some pid ->
            exists r, In r recs /\ Node.id (InstanceRecord.node r) = pid
                      /\ Node.name (InstanceRecord.node r) = Issue.name i
                      /\ InstanceRecord.level r = (Issue.level i - 1)%Z)
         /\ (Issue.parentId i = None ->
             forall r, In r recs -> Node.name (InstanceRecord.node r) = Issue.name i ->
                       InstanceRecord.level r <> (Issue.level i - 1)%Z))
         (ScanResult.issues res).
Proof.
  destruct (scanFrameForComponents_run env frame h)
    as (recs & ext & Hloc & _ & Hsee & Hrun).
  eexists recs, _, (h ++ ext). split; [exact Hloc|]. split; [exact Hrun|].
  split; [rewrite <- located_nodes, <- Hsee, map_map; reflexivity|].
  pose proof (seen_record_shape _ _ _ Hsee) as Hshape.
  split; [eapply Forall_impl; [|exact Hshape]; now intros r [Hr _]|].
  simpl. apply Forall_map, Forall_forall. intros r0 Hr0.
  apply filter_In in Hr0. destruct Hr0 as [Hr0 _].
  rewrite Forall_forall in Hshape. destruct (Hshape r0 Hr0) as (_ & front & Hchain).
  unfold issueFor, makeIssue, findParentId. simpl. rewrite Hchain.
  assert (Hne : front ++ [Node.name (InstanceRecord.node r0)] <> [])
    by (now destruct front).
  assert (Hmatch : forall r,
            isParentOf (front ++ [Node.name (InstanceRecord.node r0)]) r0 r = true <->
            Node.name (InstanceRecord.node r) = Node.name (InstanceRecord.node r0)
            /\ InstanceRecord.level r = (InstanceRecord.level r0 - 1)%Z).
  { intros r. rewrite (isParentOf_true _ r0 r Hne), last_or_null_snoc.
    split; intros [Hname Hlevel]; split; congruence. }
  destruct (front ++ [Node.name (InstanceRecord.node r0)]) as [|x path] eqn:Hpath;
    [contradiction|].
  destruct (find (isParentOf (x :: path) r0) recs) as [parent|] eqn:Hfind.
  - destruct (find_first _ _ _ Hfind) as (l1 & l2 & Hrecs & Hparent & _).
    apply Hmatch in Hparent. destruct Hparent as [Hname Hlevel].
    split; [|discriminate].
    intros pid [= <-]. exists parent. repeat split; try assumption.
    rewrite Hrecs. apply in_or_app. right. now left.
  - split; [discriminate|]. intros _ r Hr Hname Hlevel.
    pose proof (find_none _ _ Hfind r Hr) as Hno.
    assert (Hyes : isParentOf (x :: path) r0 r = true) by (apply Hmatch; auto).
    congruence.
Qed.

(** X10.  As the code stands, an issue's [parentId] is the id of a located
    instance that has the same display name as the issue's own node and a
    level one less; when no located instance has that name at that level,
    [parentId] is [null]. *)
Theorem X10_parentId_needs_same_name_one_level_up
    (env : Node.t -> outcome (option MainComponent.t)) (frame : Node.t) (h : Heap.t) :
  exists recs res h',
    locate frame h = (Ok recs, h')
    /\ scanFrameForComponents env frame h = (Ok res, h')
    /\ Forall (fun i =>
         Issue.parentId i <> None <->
         exists r, In r recs
                   /\ Node.name (InstanceRecord.node r) = Issue.name i
                   /\ InstanceRecord.level r = (Issue.level i - 1)%Z)
         (ScanResult.issues res)
    /\ Forall (fun i =>
         forall pid, Issue.parentId i = Some pid ->
           exists r, In r recs /\ Node.id (InstanceRecord.node r) = pid
                     /\ Node.name (InstanceRecord.node r) = Issue.name i
                     /\ InstanceRecord.level r = (Issue.level i - 1)%Z)
         (ScanResult.issues res).
Proof.
  destruct (scanFrameForComponents_parentIds env frame h)
    as (recs & res & h' & Hloc & Hrun & _ & _ & Hids).
  exists recs, res, h'. split; [exact Hloc|]. split; [exact Hrun|]. split.
  - eapply Forall_impl; [|exact Hids]. intros i [Hsome Hnone]. split.
    + destruct (Issue.parentId i) as [pid|]; [|congruence]. intros _.
      destruct (Hsome pid eq_refl) as (r & Hr & _ & Hname & Hlevel). now exists r.
    + intros (r & Hr & Hname & Hlevel) Hnull. exact (Hnone Hnull r Hr Hname Hlevel).
  - eapply Forall_impl; [|exact Hids]. now intros i [Hsome _].
Qed.

(** X11.  An issue at level 0 never has a [parentId]. *)
Theorem X11_top_level_issue_has_no_parentId
    (env : Node.t -> outcome (option MainComponent.t)) (frame : Node.t) (h : Heap.t) :
  exists res h',
    scanFrameForComponents env frame h = (Ok res, h')
    /\ Forall (fun i => Issue.level i = 0%Z -> Issue.parentId i = None)
         (ScanResult.issues res).
Proof.
  destruct (scanFrameForComponents_parentIds env frame h)
    as (recs & res & h' & _ & Hrun & _ & Hlevels & Hids).
  exists res, h'. split; [exact Hrun|].
  eapply Forall_impl; [|exact Hids]. intros i [Hsome _] Hzero.
  destruct (Issue.parentId i) as [pid|]; [|reflexivity].
  destruct (Hsome pid eq_refl) as (r & Hr & _ & _ & Hlevel).
  rewrite Forall_forall in Hlevels. specialize (Hlevels r Hr). lia.
Qed.

Lemma NoDup_map_injective_on {A B} (f : A -> B) (l : list A) (x y : A) :
  NoDup (map f l) -> In x l -> In y l -> f x = f y -> x = y.
Proof.
  induction l as [|a l IH]; intros Hnodup Hx Hy Heq; [contradiction|].
  simpl in Hnodup. apply NoDup_cons_iff in Hnodup. destruct Hnodup as [Hnotin Hnodup].
  destruct Hx as [<- | Hx], Hy as [<- | Hy].
  - reflexivity.
  - exfalso. apply Hnotin. rewrite Heq. now apply in_map.
  - exfalso. apply Hnotin. rewrite <- Heq. now apply in_map.
  - now apply IH.
Qed.

(** X12.  In a tree whose INSTANCE nodes all have different names, no issue
    gets a [parentId], however the instances are nested. *)
Theorem X12_distinct_names_no_parentId
    (env : Node.t -> outcome (option MainComponent.t)) (frame : Node.t) (h : Heap.t) :
  NoDup (map Node.name (filter isInstance (preorder frame))) ->
  exists res h',
    scanFrameForComponents env frame h = (Ok res, h')
    /\ Forall (fun i => Issue.parentId i = None) (ScanResult.issues res).
Proof.
  intros Hnodup.
  destruct (scanFrameForComponents_run env frame h)
    as (recs & ext & Hloc & _ & Hsee & Hrun).
  destruct (scanFrameForComponents_parentIds env frame h)
    as (recs' & res & h' & Hloc' & Hrun' & Hnodes & _ & Hids).
  rewrite Hloc in Hloc'. injection Hloc' as <- <-.
  exists res, (h ++ ext). split; [exact Hrun'|].
  rewrite Hrun in Hrun'. injection Hrun' as <-. simpl in *.
  apply Forall_map, Forall_forall. intros r0 Hr0.
  rewrite Forall_map, Forall_forall in Hids. destruct (Hids r0 Hr0) as [Hsome _].
  apply filter_In in Hr0. destruct Hr0 as [Hr0 _].
  destruct (Issue.parentId (issueFor (h ++ ext) recs r0)) as [pid|]; [|reflexivity].
  destruct (Hsome pid eq_refl) as (r & Hr & _ & Hname & Hlevel). simpl in Hname, Hlevel.
  rewrite <- Hnodes, map_map in Hnodup.
  assert (r = r0) by exact (NoDup_map_injective_on _ _ _ _ Hnodup Hr Hr0 Hname).
  subst r. lia.
Qed.

Lemma X12_rootR_names_differ :
  exists res h',
    scanFrameForComponents allLocal rootR [] = (Ok res, h')
    /\ Forall (fun i => Issue.parentId i = None) (ScanResult.issues res).
Proof.
  apply (X12_distinct_names_no_parentId allLocal rootR []).
  simpl. repeat constructor; simpl; intuition discriminate.
Defined.

(** ** Scanning a tree and scanning its subtrees *)

Lemma scans_of_children
    (env : Node.t -> outcome (option MainComponent.t)) (h : Heap.t) (cs : list Node.t) :
  exists ress,
    Forall2 (fun c rc => exists hc', scanFrameForComponents env c h = (Ok rc, hc')) cs ress
    /\ list_sum (map ScanResult.totalComponents ress)
       = List.length (filter isInstance (flat_map preorder cs))
    /\ list_sum (map ScanResult.totalIssues ress)
       = List.length (filter (unlinkedInstance env) (flat_map preorder cs))
    /\ flat_map (fun rc => map Issue.id (ScanResult.issues rc)) ress
       = map Node.id (filter (unlinkedInstance env) (flat_map preorder cs)).
Proof.
  induction cs as [|c cs (ress & Hall & Htotal & Hnissues & Hissues)].
  - exists []. repeat split. constructor.
  - destruct (scanFrameForComponents_by_nodes env c h)
      as (rc & hc' & Hrun & Htotalc & Hnissuesc & Hissuesc & _).
    exists (rc :: ress). simpl. rewrite !filter_app, !length_app, map_app.
    split; [constructor; [now exists hc' | exact Hall]|].
    split; [now rewrite Htotal, Htotalc|].
    split; [now rewrite Hnissues, Hnissuesc|].
    rewrite Hissues. f_equal.
    apply (f_equal (map (fun t => fst (fst t)))) in Hissuesc.
    rewrite !map_map in Hissuesc. exact Hissuesc.
Qed.

(** X13.  The counts and the reported ids of a scan are those of the scans
    of the root's children put together, with the root itself added when it
    is an INSTANCE (and to the issues when it is not linked). *)
Theorem X13_scan_of_root_from_scans_of_children
    (env : Node.t -> outcome (option MainComponent.t)) (root : Node.t) (h : Heap.t) :
  exists res h' ress,
    scanFrameForComponents env root h = (Ok res, h')
    /\ Forall2 (fun c rc => exists hc', scanFrameForComponents env c h = (Ok rc, hc'))
         (childrenOf root) ress
    /\ ScanResult.totalComponents res
       = (if isInstance root then 1 else 0)
         + list_sum (map ScanResult.totalComponents ress)
    /\ ScanResult.totalIssues res
       = (if unlinkedInstance env root then 1 else 0)
         + list_sum (map ScanResult.totalIssues ress)
    /\ map Issue.id (ScanResult.issues res)
       = (if unlinkedInstance env root then [Node.id root] else [])
         ++ flat_map (fun rc => map Issue.id (ScanResult.issues rc)) ress.
Proof.
  destruct (scanFrameForComponents_by_nodes env root h)
    as (res & h' & Hrun & Htotal & Hnissues & Hissues & _).
  destruct (scans_of_children env h (childrenOf root))
    as (ress & Hall & Htotals & Hnissuess & Hissuess).
  exists res, h', ress. split; [exact Hrun|]. split; [exact Hall|].
  rewrite preorder_eq in Htotal, Hnissues, Hissues. simpl in Htotal, Hnissues, Hissues.
  apply (f_equal (map (fun t => fst (fst t)))) in Hissues.
  rewrite !map_map in Hissues. simpl in Hissues.
  rewrite Htotals, Hnissuess, Hissuess, Htotal, Hnissues.
  split; [now destruct (isInstance root)|].
  split; [now destruct (unlinkedInstance env root)|].
  etransitivity; [exact Hissues|]. now destruct (unlinkedInstance env root).
Qed.

(** ** The message handler, continued *)



(** ** The start of the plugin *)

(** X16.  At start the plugin shows its UI (640 by 300) and installs its
    handler exactly once when the editor is figma, figjam, slides or buzz,
    and does nothing in any other editor; only the figma handler looks nodes
    up asynchronously. *)
Theorem X16_startup_installs_one_handler (editorType : string) :
  (In editorType ["figma"; "figjam"; "slides"; "buzz"] ->
   startup editorType
   = [ShowUI 640 300;
      SetOnMessage (if editorType =? "figma" then AsyncLookup else SyncLookup)])
  /\ (~ In editorType ["figma"; "figjam"; "slides"; "buzz"] -> startup editorType = []).
Proof.
  split.
  - intros [<- | [<- | [<- | [<- | []]]]]; reflexivity.
  - intros Hother. unfold startup.
    destruct (editorType =? "figma") eqn:E1;
      [apply String.eqb_eq in E1; exfalso; apply Hother; simpl; auto|].
    destruct (editorType =? "figjam") eqn:E2;
      [apply String.eqb_eq in E2; exfalso; apply Hother; simpl; auto|].
    destruct (editorType =? "slides") eqn:E3;
      [apply String.eqb_eq in E3; exfalso; apply Hother; simpl; auto|].
    destruct (editorType =? "buzz") eqn:E4;
      [apply String.eqb_eq in E4; exfalso; apply Hother; simpl; auto|].
    reflexivity.
Qed.

Lemma X16_figjam_and_unknown_editor :
  startup "figjam" = [ShowUI 640 300; SetOnMessage SyncLookup] /\ startup "dev" = [].
Proof.
  split.
  - apply (proj1 (X16_startup_installs_one_handler "figjam")). simpl. auto.
  - apply (proj2 (X16_startup_installs_one_handler "dev")). simpl.
    intuition discriminate.
Defined.

(** ** The record of the enclosing instance *)

Lemma flat_map_split {A B} (f : A -> list B) (l : list A) :
  forall w1 x w2,
    flat_map f l = w1 ++ x :: w2 ->
    exists c u1 u2, In c l /\ f c = u1 ++ x :: u2 /\ incl u1 w1.
Proof.
  induction l as [|c l IH]; intros w1 x w2 Heq.
  - now destruct w1.
  - simpl in Heq. apply app_eq_app in Heq.
    destruct Heq as (m & [[Hfc Hrest] | [Hw1 Hrest]]).
    + destruct m as [|y m].
      * rewrite app_nil_r in Hfc. simpl in Hrest.
        destruct (IH [] x w2 (eq_sym Hrest)) as (c' & u1 & u2 & Hc' & Hfc' & Hincl).
        exists c', u1, u2. split; [now right|]. split; [exact Hfc'|].
        intros y Hy. destruct (Hincl y Hy).
      * injection Hrest as <- _. exists c, w1, m.
        split; [now left|]. split; [exact Hfc | apply incl_refl].
    + destruct (IH m x w2 Hrest) as (c' & u1 & u2 & Hc' & Hfc' & Hincl).
      exists c', u1, u2. split; [now right|]. split; [exact Hfc'|].
      intros y Hy. rewrite Hw1. apply in_or_app. right. now apply Hincl.
Qed.

Lemma filter_split {A} (f : A -> bool) (l : list A) :
  forall f1 x f2,
    filter f l = f1 ++ x :: f2 ->
    exists l1 l2, l = l1 ++ x :: l2 /\ filter f l1 = f1 /\ filter f l2 = f2 /\ f x = true.
Proof.
  induction l as [|y l IH]; intros f1 x f2 Heq.
  - now destruct f1.
  - simpl in Heq. destruct (f y) eqn:Hy.
    + destruct f1 as [|z f1].
      * injection Heq as -> Hrest. exists [], l. auto.
      * injection Heq as -> Hrest.
        destruct (IH f1 x f2 Hrest) as (l1 & l2 & -> & H1 & H2 & Hx).
        exists (z :: l1), l2. simpl. rewrite Hy, H1. auto.
    + destruct (IH f1 x f2 Heq) as (l1 & l2 & -> & H1 & H2 & Hx).
      exists (y :: l1), l2. simpl. rewrite Hy. auto.
Qed.

Lemma walk_ancestor_listed_before (root : Node.t) :
  forall above w1 ancestors n w2 pre a post,
    walk above root = w1 ++ (ancestors, n) :: w2 ->
    ancestors = above ++ pre ++ a :: post ->
    In (above ++ pre, a) w1.
Proof.
  induction root as [root IH] using Node_ind_children.
  intros above w1 ancestors n w2 pre a post Hwalk Hanc.
  rewrite walk_eq in Hwalk. destruct w1 as [|x w1].
  - injection Hwalk as Habove _. exfalso.
    apply (f_equal (@List.length _)) in Hanc. rewrite Habove in Hanc.
    rewrite !length_app in Hanc. simpl in Hanc. lia.
  - injection Hwalk as <- Hwalk.
    destruct (flat_map_split _ _ _ _ _ Hwalk) as (c & u1 & u2 & Hc & Hwc & Hincl).
    rewrite Forall_forall in IH.
    assert (Hin : In (ancestors, n) (walk (above ++ [root]) c)).
    { rewrite Hwc. apply in_or_app. right. now left. }
    destruct (walk_ancestors_above c _ _ _ Hin) as (below & Hbelow & _).
    rewrite Hanc, <- app_assoc in Hbelow. apply app_inv_head in Hbelow.
    destruct pre as [|p pre]; simpl in Hbelow.
    + injection Hbelow as -> _. left. now rewrite app_nil_r.
    + injection Hbelow as -> _. right. apply Hincl.
      replace (above ++ root :: pre) with ((above ++ [root]) ++ pre)
        by now rewrite <- app_assoc.
      apply (IH c Hc (above ++ [root]) u1 ancestors n u2 pre a post Hwc).
      rewrite Hanc. now rewrite <- app_assoc.
Qed.

(** X17.  For every record with a [parentName], the record of the nearest
    enclosing instance comes earlier in the list: it has that name, a level
    one less, its node lies above the record's node, and the record's stored
    chain is the stored chain of that earlier record followed by the
    record's own name. *)
Theorem X17_enclosing_instance_record_comes_before (root : Node.t) (h : Heap.t) :
  exists recs h',
    locate root h = (Ok recs, h')
    /\ forall l1 r l2 nm,
         recs = l1 ++ r :: l2 ->
         InstanceRecord.parentName r = Some nm ->
         exists r',
           In r' l1
           /\ Node.name (InstanceRecord.node r') = nm
           /\ InstanceRecord.level r' = (InstanceRecord.level r - 1)%Z
           /\ In (InstanceRecord.node r) (descendants (InstanceRecord.node r'))
           /\ Heap.get h' (InstanceRecord.parentPath r)
              = Heap.get h' (InstanceRecord.parentPath r')
                ++ [Node.name (InstanceRecord.node r)].
Proof.
  destruct (locate_locates root h) as (recs & ext & Hrun & _ & Hsee).
  exists recs, (h ++ ext). split; [exact Hrun|].
  intros l1 r l2 nm -> Hname.
  unfold located in Hsee. rewrite map_app in Hsee. simpl in Hsee.
  symmetry in Hsee. apply map_eq_app in Hsee.
  destruct Hsee as (F1 & F2' & HF & HF1 & Hsee).
  apply map_eq_cons in Hsee. destruct Hsee as ([ancestors n] & F2 & -> & Hr & _).
  destruct (filter_split _ _ _ _ _ HF) as (W1 & W2 & HW & HW1 & _ & _).
  pose proof (f_equal Seen.parentName Hr) as Hpn.
  pose proof (f_equal Seen.level Hr) as Hlv.
  pose proof (f_equal Seen.node Hr) as Hnd.
  pose proof (f_equal Seen.parentPath Hr) as Hch.
  simpl in Hpn, Hlv, Hnd, Hch. rewrite Hname in Hpn.
  unfold instanceNames in Hpn, Hch.
  destruct (filter isInstance ancestors) as [|a0 fl0] eqn:Hfilter; [discriminate|].
  destruct (exists_last (l := a0 :: fl0)) as (fl & a & Hlast); [discriminate|].
  rewrite Hlast in Hpn, Hlv, Hch. rewrite <- Hfilter in Hlast.
  replace (fl ++ [a]) with (fl ++ a :: []) in Hlast by reflexivity.
  destruct (filter_split _ _ _ _ _ Hlast) as (pre & post & Hanc & Hpre & _ & Ha).
  rewrite map_app in Hpn. simpl map in Hpn. rewrite last_or_null_snoc in Hpn.
  injection Hpn as Hnm.
  assert (Hin : In (ancestors, n) (walk [] root)).
  { rewrite HW. apply in_or_app. right. now left. }
  destruct (walk_ancestors_above root [] ancestors n Hin) as (below & Hbelow & Habove).
  simpl in Hbelow. subst below.
  assert (Hbefore : In (pre, a) W1).
  { exact (walk_ancestor_listed_before root [] W1 ancestors n W2 pre a post HW Hanc). }
  assert (Hrec : In (emitted (pre, a)) (map (seeRecord (h ++ ext)) l1)).
  { rewrite <- HF1. apply in_map. rewrite <- HW1. apply filter_In. now split. }
  apply in_map_iff in Hrec. destruct Hrec as (r' & Hr' & Hinr').
  exists r'. split; [exact Hinr'|].
  pose proof (f_equal Seen.node Hr') as Hnd'.
  pose proof (f_equal Seen.level Hr') as Hlv'.
  pose proof (f_equal Seen.parentPath Hr') as Hch'.
  simpl in Hnd', Hlv', Hch'. unfold instanceNames in Hch'.
  rewrite Hnd', Hlv', Hch', <- Hlv, <- Hnd, <- Hch, Hpre.
  split; [exact Hnm|]. split; [|split].
  - rewrite length_app. simpl. lia.
  - rewrite Forall_forall in Habove. apply Habove. rewrite Hanc.
    apply in_or_app. right. now left.
  - now rewrite map_app.
Qed.

Lemma X17_icon_after_btn :
  exists r',
    Node.name (InstanceRecord.node r') = "Btn" /\ InstanceRecord.level r' = 0%Z
    /\ In icon (descendants (InstanceRecord.node r')).
Proof.
  destruct (X17_enclosing_instance_record_comes_before rootR [])
    as (recs & h' & Hloc & Hbefore).
  cbv in Hloc. injection Hloc as Hrecs _.
  destruct (Hbefore [InstanceRecord.mk btn 0 2 None]
              (InstanceRecord.mk icon 1 3 (Some "Btn")) [] "Btn")
    as (r' & _ & Hnm & Hlv & Hdesc & _).
  - rewrite <- Hrecs. reflexivity.
  - reflexivity.
  - exists r'. auto.
Defined.

(** ** What an issue says about its node *)

(** X18.  The issues of a scan are, in pre-order, the INSTANCE nodes that are
    not linked; each issue carries the id of its node, as level the number of
    INSTANCE nodes strictly above it, and as [parentName] the name of the
    nearest of them ([null] when there is none). *)
Theorem X18_issue_level_and_parentName
    (env : Node.t -> outcome (option MainComponent.t)) (frame : Node.t) (h : Heap.t) :
  exists res h',
    scanFrameForComponents env frame h = (Ok res, h')
    /\ map (fun i => (Issue.id i, Issue.level i, Issue.parentName i)) (ScanResult.issues res)
       = map (fun p => (Node.id (snd p),
                        Z.of_nat (List.length (filter isInstance (fst p))),
                        option_map Node.name (nearestInstance (fst p))))
           (filter (fun p => unlinkedInstance env (snd p)) (walk [] frame)).
Proof.
  destruct (scanFrameForComponents_audited env frame h) as (res & ext & Hrun & Hsee).
  exists res, (h ++ ext). split; [exact Hrun|].
  specialize (Hsee []). rewrite app_nil_r in Hsee.
  apply (f_equal Seen.issues) in Hsee.
  apply (f_equal (map (fun i => (Seen.id i, Seen.issueLevel i, Seen.issueParentName i))))
    in Hsee.
  unfold seeResult, audited, located in Hsee. simpl in Hsee.
  rewrite (filter_map_swap (fun r => negb (classify env (Seen.node r))) emitted) in Hsee.
  rewrite filter_filter, !map_map in Hsee. simpl in Hsee.
  etransitivity; [exact Hsee|].
  apply map_ext. intros p. now rewrite last_or_null_instanceNames.
Qed.

(** ** The map of parent ids *)

Lemma map_set_keys (k v : string) (m : list (string * string)) :
  forall k', In k' (map fst (map_set k v m)) <-> k' = k \/ In k' (map fst m).
Proof.
  induction m as [|[k0 v0] m IH]; intros k'; simpl.
  - intuition.
  - destruct (k0 =? k) eqn:Heq; simpl.
    + apply String.eqb_eq in Heq. subst k0. intuition.
    + rewrite IH. intuition.
Qed.

Lemma map_set_NoDup (k v : string) (m : list (string * string)) :
  NoDup (map fst m) -> NoDup (map fst (map_set k v m)).
Proof.
  induction m as [|[k0 v0] m IH]; intros Hnodup; simpl.
  - constructor; [intros [] | constructor].
  - simpl in Hnodup. apply NoDup_cons_iff in Hnodup. destruct Hnodup as [Hnotin Hnodup].
    destruct (k0 =? k) eqn:Heq; simpl.
    + constructor; assumption.
    + constructor; [|now apply IH].
      rewrite map_set_keys. intros [-> | Hin]; [|contradiction].
      now rewrite String.eqb_refl in Heq.
Qed.

Lemma scan_loop_map (env : Node.t -> outcome (option MainComponent.t))
    (instances : list InstanceRecord.t) (h : Heap.t) (l : list InstanceRecord.t) :
  forall st, NoDup (map fst (snd st)) ->
    exists m,
      for_of (scanBody env instances) l st h =
      (Ok (fst st ++ map (issueFor h instances) (filter (unlinked env) l), m), h)
      /\ NoDup (map fst m)
      /\ forall k, In k (map fst m) <->
                   In k (map fst (snd st))
                   \/ In k (map Issue.id (map (issueFor h instances)
                                            (filter (unlinked env) l))).
Proof.
  induction l as [|r l IH]; intros st Hnodup.
  - exists (snd st). simpl. unfold ret. rewrite app_nil_r.
    split; [now destruct st|]. split; [exact Hnodup | intuition].
  - simpl. unfold bind at 1. unfold scanBody at 1. unfold bind at 1.
    rewrite isComponentLinked_run.
    change (unlinked env r) with (negb (classify env (InstanceRecord.node r))).
    destruct (classify env (InstanceRecord.node r)); simpl.
    + apply IH. exact Hnodup.
    + destruct (IH (fst st ++ [makeIssue r (findParentId
                                  (Heap.get h (InstanceRecord.parentPath r)) instances r)],
                    map_set (Node.id (InstanceRecord.node r))
                      (Node.name (InstanceRecord.node r)) (snd st)))
        as (m & Hm & Hnd & Hkeys).
      * simpl. now apply map_set_NoDup.
      * exists m. rewrite Hm. simpl. rewrite <- app_assoc. split; [reflexivity|].
        split; [exact Hnd|]. intros k. rewrite Hkeys. simpl. rewrite map_set_keys.
        intuition.
Qed.

(** X19.  The loop of the scan leaves in [parentIdMap] exactly the ids of
    the reported issues as keys, each once; the map is only written, so the
    issues are the same whatever the map holds when the loop starts. *)
Theorem X19_parentIdMap_holds_the_issue_ids
    (env : Node.t -> outcome (option MainComponent.t))
    (instances : list InstanceRecord.t) (h : Heap.t) :
  exists issues m,
    for_of (scanBody env instances) instances ([], []) h = (Ok (issues, m), h)
    /\ NoDup (map fst m)
    /\ (forall k, In k (map fst m) <-> In k (map Issue.id issues))
    /\ (forall m0, exists m',
          for_of (scanBody env instances) instances ([], m0) h = (Ok (issues, m'), h)).
Proof.
  destruct (scan_loop_map env instances h instances ([], [])) as (m & Hrun & Hnd & Hkeys).
  - constructor.
  - eexists _, m. split; [exact Hrun|]. split; [exact Hnd|]. split.
    + intros k. rewrite Hkeys. simpl. intuition.
    + intros m0. exact (scan_loop_run env instances h instances ([], m0)).
Qed.
